(** * Verification of the i18n compiler of ws ([src/lib/i18n-compile.ts])

    The development is a shallow embedding of [i18n-compile.ts]:

    - JavaScript objects used as dictionaries ([TranslationMap], [AstMap])
      are property lists in creation order ([JsObject]); [Object.keys]
      lists array-index keys first (ascending), then the other keys in
      creation order.  The objects are created by object literals, so a
      read [o[k]] that finds no own property goes on to
      [Object.prototype] ([JsPrototype]); [Object.keys] and
      [Object.assign] see own properties only.
    - A promise is the result it settles to ([Ok] / [Throw]).  The
      file-system operations that [compileI18n] issues are recorded, in
      the order of the program text, in an event log that is threaded
      through the computation ([Async]).  [Promise.all] starts all of its
      promises; of several rejections the one of the first array element
      is reported.
    - Everything that [i18n-compile.ts] imports (lodash's [camelCase],
      properties, intl-messageformat-parser, stringify-object, path,
      fs-extra-promise, globby, [../lib/i18n], [./intl], [../project]) is
      a field of the record [Host], together with the outcome of every
      file-system operation.  [globby] returns the dependencies in the
      order in which their [package.json] is read.

    The first part has the definitions: the model of the JavaScript
    values, the functions of [i18n-compile.ts] in the order of the file,
    the notions of the specification ([Spec]) and a small project to run
    the compiler on ([Demo]).  The second part has the properties. *)

From Stdlib Require Import String Ascii List Bool NArith Lia.
Import ListNotations.

Local Open Scope list_scope.
Local Open Scope string_scope.

Set Implicit Arguments.

(** ** Strings as the templates use them *)

Module Js.

(** [s.split(sep)] for a one-character separator. *)
Fixpoint split (sep : ascii) (s : string) : list string :=
  match s with
  | EmptyString => [EmptyString]
  | String c r =>
      if Ascii.eqb c sep then EmptyString :: split sep r
      else match split sep r with
           | h :: t => String c h :: t
           | [] => [String c EmptyString]
           end
  end.

(** [xs.join(sep)]. *)
Definition join (sep : string) (xs : list string) : string :=
  String.concat sep xs.

(** A value spliced into a template literal: [undefined] prints as the
    word. *)
Definition interpolate (v : option string) : string :=
  match v with
  | Some s => s
  | None => "undefined"
  end.

(** Occurrence of a character in a string. *)
Fixpoint mem (c : ascii) (s : string) : bool :=
  match s with
  | EmptyString => false
  | String d r => Ascii.eqb d c || mem c r
  end.

Definition LF : string := String (ascii_of_nat 10) EmptyString.

End Js.

(** ** JavaScript objects used as dictionaries *)

Module JsObject.

Definition t (V : Type) : Type := list (string * V).

Definition empty {V : Type} : t V := [].

(** [o[k]]: [None] is [undefined]. *)
Fixpoint get {V : Type} (o : t V) (k : string) : option V :=
  match o with
  | [] => None
  | (k', v) :: r => if String.eqb k' k then Some v else get r k
  end.

(** [o[k] = v]: an existing property keeps its place, a new one is
    created last.  The keys that the compiler assigns are results of
    lodash's [camelCase], which consist of letters and digits; the one
    key whose assignment creates no own property, [__proto__], is not
    among them and is not treated apart. *)
Fixpoint set {V : Type} (o : t V) (k : string) (v : V) : t V :=
  match o with
  | [] => [(k, v)]
  | (k', v') :: r =>
      if String.eqb k' k then (k', v) :: r else (k', v') :: set r k v
  end.

Definition digit (c : ascii) : option N :=
  let n := N_of_ascii c in
  if ((48 <=? n) && (n <=? 57))%N then Some (n - 48)%N else None.

Fixpoint digits (acc : N) (s : string) : option N :=
  match s with
  | EmptyString => Some acc
  | String c r =>
      match digit c with
      | Some d => digits (acc * 10 + d)%N r
      | None => None
      end
  end.

(** A key is an array index when it is the canonical decimal form of an
    integer below [2^32 - 1]. *)
Definition arrayIndex (k : string) : option N :=
  match k with
  | EmptyString => None
  | String c r =>
      if Ascii.eqb c "0"%char && negb (String.eqb r EmptyString) then None
      else match digits 0 k with
           | Some n => if (n <? 4294967295)%N then Some n else None
           | None => None
           end
  end.

Fixpoint insertIndex (e : N * string) (l : list (N * string))
  : list (N * string) :=
  match l with
  | [] => [e]
  | x :: r => if (fst e <=? fst x)%N then e :: l else x :: insertIndex e r
  end.

Fixpoint indexKeys (ks : list string) : list (N * string) :=
  match ks with
  | [] => []
  | k :: r =>
      match arrayIndex k with
      | Some n => insertIndex (n, k) (indexKeys r)
      | None => indexKeys r
      end
  end.

Definition isNamed (k : string) : bool :=
  match arrayIndex k with Some _ => false | None => true end.

(** The order of own property keys: array indices ascending, then the
    remaining keys in creation order. *)
Definition orderKeys (ks : list string) : list string :=
  (map snd (indexKeys ks) ++ filter isNamed ks)%list.

(** [Object.keys(o)]. *)
Definition keys {V : Type} (o : t V) : list string :=
  orderKeys (map fst o).

(** [Object.assign(acc, src)]: every own property of [src], in key
    order, is assigned on [acc]. *)
Definition assign {V : Type} (acc src : t V) : t V :=
  fold_left
    (fun a k => match get src k with Some v => set a k v | None => a end)
    (keys src) acc.

End JsObject.

(** ** Reading a property through the prototype *)

Module JsPrototype.

(** The names of the members of [Object.prototype], which every object
    literal inherits. *)
Definition members : list string :=
  ["constructor"; "hasOwnProperty"; "isPrototypeOf"; "propertyIsEnumerable";
   "toLocaleString"; "toString"; "valueOf"; "__proto__";
   "__defineGetter__"; "__defineSetter__"; "__lookupGetter__";
   "__lookupSetter__"].

Definition isMember (k : string) : bool := existsb (String.eqb k) members.

(** What [o[k]] evaluates to for an object literal [o]: its own property,
    else the member of [Object.prototype] of that name, else
    [undefined]. *)
Inductive Value (V : Type) : Type :=
| own (v : V)
| member (name : string)
| undefined.

Arguments own {V} v.
Arguments member {V} name.
Arguments undefined {V}.

Definition read {V : Type} (o : JsObject.t V) (k : string) : Value V :=
  match JsObject.get o k with
  | Some v => own v
  | None => if isMember k then member k else undefined
  end.

(** What [hasArguments] can see of a value: [ast && ast.elements] is falsy
    for [undefined] and for every member of [Object.prototype], none of
    which has [elements]. *)
Definition tree {V : Type} (value : Value V) : option V :=
  match value with
  | own v => Some v
  | member _ => None
  | undefined => None
  end.

End JsPrototype.


(** ** Promises and thrown errors *)

(** A thrown value; the code only ever inspects [err.code]. *)
Record JsError : Type := mkError {
  code : option string;
  message : string
}.

Inductive Result (A : Type) : Type :=
| Ok (a : A)
| Throw (e : JsError).

Arguments Ok {A} a.
Arguments Throw {A} e.

Definition TypeError : JsError := mkError None "TypeError".

(** [Promise.all] over promises that are already settled: the values in
    order, or the rejection of the first rejected element. *)
Fixpoint allSettled {A : Type} (ps : list (Result A)) : Result (list A) :=
  match ps with
  | [] => Ok []
  | Throw e :: _ => Throw e
  | Ok a :: r =>
      match allSettled r with
      | Ok l => Ok (a :: l)
      | Throw e => Throw e
      end
  end.

(** ** The data model of [i18n-compile.ts] *)

(** The message tree that [intl-messageformat-parser] returns; the [type]
    tag of each node is the constructor. *)
Inductive Ast : Type :=
| messageFormatPattern (elements : list Element)
with Element : Type :=
| messageTextElement (value : string)
| argumentElement (id : string) (format : option Format)
with Format : Type :=
| numberFormat (style : option string)
| dateFormat (style : option string)
| timeFormat (style : option string)
| pluralFormat (ordinal : bool) (offset : N)
               (options : list OptionalFormatPattern)
| selectFormat (options : list OptionalFormatPattern)
with OptionalFormatPattern : Type :=
| optionalFormatPattern (selector : string) (value : Ast).

Definition TranslationMap : Type := JsObject.t string.
Definition AstMap : Type := JsObject.t Ast.

Record Translation : Type := mkTranslation {
  locale : string;
  data : TranslationMap
}.

Record GroupedTranslation : Type := mkGroupedTranslation {
  g_locale : string;
  translations : list Translation
}.

Record ParsedTranslation : Type := mkParsedTranslation {
  p_locale : string;
  p_data : TranslationMap;
  asts : AstMap
}.

(** The [ws.i18n] block of a dependency's [package.json]. *)
Record PkgI18n : Type := mkPkgI18n {
  pkg_dir : option string;
  pkg_features : option (list string);
  pkg_locales : list string
}.

(** A [package.json]: [pkg.ws && pkg.ws.i18n]. *)
Record Pkg : Type := mkPkg {
  pkg_ws_i18n : option PkgI18n
}.

(** [project.ws.i18n] and [project.ws.entryExtension]. *)
Record I18nConfig : Type := mkI18nConfig {
  dir : string;
  features : option (list string);
  locales : list string;
  distDir : string;
  module : string
}.

Record Project : Type := mkProject {
  i18n : I18nConfig;
  entryExtension : string
}.

(** What the compiler imports and the machine it runs on.
    [stringifyMember name] is [stringifyObject] applied to the member
    [name] of [Object.prototype], and [printMember name] is that member
    spliced into a template literal. *)
Record Host : Type := mkHost {
  camelCase : string -> string;
  properties_parse : string -> Result TranslationMap;
  parser_parse : string -> Result Ast;
  stringifyObject : Ast -> string;
  stringifyMember : string -> string;
  printMember : string -> string;
  path_join : list string -> string;
  path_dirname : string -> string;
  concatLanguages : list string -> list string;
  isMatchingLocaleOrLanguage : string -> string -> bool;
  toIntlLocale : string -> Result string;
  project : Project;
  process_cwd : string;
  globby : string -> Result (list string);
  readJsonAsync : string -> Result Pkg;
  readFileAsync : string -> Result string;
  removeAsync : string -> Result unit;
  outputFileAsync : string -> string -> Result unit
}.

(** ** File-system effects *)

Inductive Event : Type :=
| Removed (path : string)
| Written (path : string) (content : string).

(** An asynchronous step: it extends the log of issued file-system
    operations and settles. *)
Definition Async (A : Type) : Type := list Event -> Result A * list Event.

Definition resolve {A : Type} (a : A) : Async A := fun log => (Ok a, log).

Definition reject {A : Type} (e : JsError) : Async A :=
  fun log => (Throw e, log).

Definition settled {A : Type} (r : Result A) : Async A := fun log => (r, log).

Definition await {A B : Type} (p : Async A) (k : A -> Async B) : Async B :=
  fun log =>
    match p log with
    | (Ok a, log') => k a log'
    | (Throw e, log') => (Throw e, log')
    end.

Notation "x <- p ;; k" := (await p (fun x => k))
  (at level 61, p at next level, right associativity).

(** [Promise.all(ps)]: every promise of the array has been started, so each
    one issues its operations; the result is rejected when one of them
    is. *)
Fixpoint promiseAll {A : Type} (ps : list (Async A)) : Async (list A) :=
  fun log =>
    match ps with
    | [] => (Ok [], log)
    | p :: r =>
        let (x, log1) := p log in
        let (xs, log2) := promiseAll r log1 in
        (match x, xs with
         | Ok a, Ok l => Ok (a :: l)
         | Throw e, _ => Throw e
         | Ok _, Throw e => Throw e
         end, log2)
    end.

(** ** The functions of [i18n-compile.ts] *)

Definition DQ : string := String (ascii_of_nat 34) EmptyString.

Definition GENERATED_WARNING : string :=
  "// this file was generated by @mercateo/ws - do not modify it manually".

(** lodash's [uniqBy(array, iteratee)]: an element is kept when no earlier
    element has the same computed key. *)
Fixpoint uniqByFrom {A : Type} (f : A -> string) (seen : list string)
    (l : list A) : list A :=
  match l with
  | [] => []
  | x :: r =>
      if existsb (String.eqb (f x)) seen then uniqByFrom f seen r
      else x :: uniqByFrom f (f x :: seen) r
  end.

Definition uniqBy {A : Type} (l : list A) (f : A -> string) : list A :=
  uniqByFrom f [] l.

Definition isArgumentElement (element : Element) : bool :=
  match element with
  | argumentElement _ _ => true
  | messageTextElement _ => false
  end.

Definition elementsOf (ast : Ast) : list Element :=
  match ast with messageFormatPattern elements => elements end.

Definition selectorOf (o : OptionalFormatPattern) : string :=
  match o with optionalFormatPattern selector _ => selector end.

(** [hasArguments(ast)], as the condition it is used for. *)
Definition hasArguments (ast : option Ast) : bool :=
  match ast with
  | Some a =>
      negb (Nat.eqb (length (filter isArgumentElement (elementsOf a))) 0)
  | None => false
  end.

Record KeyTypePair : Type := mkKeyTypePair {
  key : string;
  type : string
}.

(** The object that the [map] callback of [getArgumentTypes] builds; the
    callback only runs on argument elements. *)
Definition keyTypePairOf (element : Element) : KeyTypePair :=
  match element with
  | argumentElement id format =>
      {| key := id;
         type :=
           match format with
           | Some (pluralFormat _ _ _) => "number"
           | Some (selectFormat options) =>
               Js.join " | "
                 (map (fun o =>
                         if String.eqb (selectorOf o) "other" then "string"
                         else "'" ++ selectorOf o ++ "'")
                      options)
           | _ => "string"
           end |}
  | messageTextElement _ => {| key := "undefined"; type := "string" |}
  end.

Definition keyTypePairs (ast : Ast) : list KeyTypePair :=
  uniqBy (map keyTypePairOf (filter isArgumentElement (elementsOf ast))) key.

Definition getArgumentTypes (ast : Ast) : string :=
  let pairs := keyTypePairs ast in
  if negb (Nat.eqb (length pairs) 0) then
    "{ " ++ Js.join ", " (map (fun p => key p ++ ": " ++ type p) pairs) ++ " }"
  else "".

Definition getArgument (ast : option Ast) (hasTypes : bool) : string :=
  if hasArguments ast then
    if hasTypes then
      match ast with
      | Some a => "data" ++ getArgumentTypes a
      | None => "data"
      end
    else "data"
  else "".

Definition indent (indentation text : string) : string :=
  Js.join (Js.LF ++ indentation) (Js.split (ascii_of_nat 10) text).

(** [locale.split('_')[i]] spliced into a template. *)
Definition localePart (locale : string) (i : nat) : string :=
  Js.interpolate (nth_error (Js.split "_"%char locale) i).

Definition dataParameter (ast : option Ast) : string :=
  if hasArguments ast then "data" else "".

Section Compiler.

Variable H : Host.

Definition camelCaseKeys (data : TranslationMap) : TranslationMap :=
  fold_left
    (fun acc key =>
       match JsObject.get data key with
       | Some v => JsObject.set acc (camelCase H key) v
       | None => acc
       end)
    (JsObject.keys data) JsObject.empty.

Definition readPath (cwd dir locale feature : string) : string :=
  path_join H [cwd; dir; feature; locale ++ ".properties"].

(** The promise chain of [readTranslation]: [then(parse)], the [catch]
    that turns [ENOENT] into an empty object, [then(camelCaseKeys)] and
    the final wrapping. *)
Definition readTranslation (cwd dir locale feature : string)
  : Result Translation :=
  let parsed :=
    match readFileAsync H (readPath cwd dir locale feature) with
    | Ok text => properties_parse H text
    | Throw err => Throw err
    end in
  let caught :=
    match parsed with
    | Ok obj => Ok obj
    | Throw err =>
        match code err with
        | Some c => if String.eqb c "ENOENT" then Ok JsObject.empty
                    else Throw err
        | None => Throw err
        end
    end in
  match caught with
  | Ok obj => Ok {| locale := locale; data := camelCaseKeys obj |}
  | Throw err => Throw err
  end.

(** [stringifyObject(translation.asts[key], stringifyObjectOptions)] when
    [translation.asts[key]] is truthy: a message tree and every member of
    [Object.prototype] are, [undefined] is not. *)
Definition stringified (value : JsPrototype.Value Ast) : option string :=
  match value with
  | JsPrototype.own ast => Some (stringifyObject H ast)
  | JsPrototype.member name => Some (stringifyMember H name)
  | JsPrototype.undefined => None
  end.

(** The text of one formatter of a per-locale module. *)
Definition formatterOf (translation : ParsedTranslation) (key : string)
  : string :=
  let value := JsPrototype.read (asts translation) key in
  let ast := JsPrototype.tree value in
  Js.LF ++ "myModule." ++ key ++ " = function(" ++ dataParameter ast ++ ") {" ++
  match stringified value with
  | Some text =>
      Js.LF ++ "  if (!cachedMessages." ++ key ++ ") {" ++
      Js.LF ++ "    const ast = " ++ indent "    " text ++ ";" ++
      Js.LF ++ "    cachedMessages." ++ key ++
        " = new IntlMessageFormat(ast, myModule.INTL_LOCALE);" ++
      Js.LF ++ "  }" ++
      Js.LF ++
      Js.LF ++ "  return cachedMessages." ++ key ++ ".format(" ++
        dataParameter ast ++ ");"
  | None => "return 'Missing key " ++ DQ ++ key ++ DQ ++ ".';"
  end ++
  Js.LF ++ "};" ++
  Js.LF.

Definition moduleHeader (translation : ParsedTranslation)
    (intlLocale : string) : string :=
  GENERATED_WARNING ++
  Js.LF ++ "const IntlMessageFormat = require('intl-messageformat');" ++
  Js.LF ++ "// use intl polyfill for IE 10 and Safari 9" ++
  Js.LF ++ "require('intl');" ++
  Js.LF ++ "require('intl/locale-data/jsonp/" ++ intlLocale ++ "');" ++
  Js.LF ++
  Js.LF ++ "var myModule = {};" ++
  Js.LF ++ "myModule.LOCALE = '" ++ p_locale translation ++ "';" ++
  Js.LF ++ "myModule.INTL_LOCALE = '" ++ intlLocale ++ "';" ++
  Js.LF ++ "myModule.LANGUAGE_CODE = '" ++
    localePart (p_locale translation) 0 ++ "';" ++
  Js.LF ++ "myModule.COUNTRY_CODE = '" ++
    localePart (p_locale translation) 1 ++ "';" ++
  Js.LF ++
  Js.LF ++ "const cachedMessages = {};" ++
  Js.LF.

Definition moduleFooter : string :=
  Js.LF ++
  Js.LF ++ "module.exports['mercateo/i18n'] = myModule;" ++
  Js.LF.

(** The [data] of [writeTranslation]. *)
Definition translationModule (defaultTranslation translation : ParsedTranslation)
    (intlLocale : string) : string :=
  moduleHeader translation intlLocale ++
  Js.join ""
    (map (formatterOf translation)
         (JsObject.keys (p_data defaultTranslation))) ++
  moduleFooter.

Definition writeTranslation (defaultTranslation translation : ParsedTranslation)
  : Async unit :=
  let filename :=
    path_join H [distDir (i18n (project H)); p_locale translation ++ ".js"] in
  intlLocale <- settled (toIntlLocale H (p_locale translation)) ;;
  let data := translationModule defaultTranslation translation intlLocale in
  fun log => (outputFileAsync H filename data, (log ++ [Written filename data])%list).

(** The text of one formatter of the unit module. *)
Definition unitFormatterOf (translation : ParsedTranslation) (key : string)
  : string :=
  let value := JsPrototype.read (asts translation) key in
  let ast := JsPrototype.tree value in
  Js.LF ++ "export const " ++ key ++ " = (" ++ dataParameter ast ++ ") => {" ++
  match stringified value with
  | Some text =>
      Js.LF ++ "    if (!cachedMessages['" ++ key ++ "']) {" ++
      Js.LF ++ "    const ast = " ++ indent "    " text ++ ";" ++
      Js.LF ++ "    cachedMessages['" ++ key ++
        "'] = new IntlMessageFormat(ast, INTL_LOCALE);" ++
      Js.LF ++ "  }" ++
      Js.LF ++
      Js.LF ++ "  return cachedMessages['" ++ key ++ "'].format(" ++
        dataParameter ast ++ ");"
  | None => "return 'Missing key " ++ DQ ++ key ++ DQ ++ ".'"
  end ++
  Js.LF ++ "};" ++
  Js.LF.

Definition unitHeader (translation : ParsedTranslation)
    (intlLocale : string) : string :=
  GENERATED_WARNING ++
  Js.LF ++ "const IntlMessageFormat = require('intl-messageformat');" ++
  Js.LF ++ "// use intl polyfill for IE 10 and Safari 9" ++
  Js.LF ++ "require('intl');" ++
  Js.LF ++ "require('intl/locale-data/jsonp/" ++ intlLocale ++ "');" ++
  Js.LF ++
  Js.LF ++ "export const LOCALE = '" ++ p_locale translation ++ "';" ++
  Js.LF ++ "export const INTL_LOCALE = '" ++ intlLocale ++ "';" ++
  Js.LF ++ "export const LANGUAGE_CODE = '" ++
    localePart (p_locale translation) 0 ++ "';" ++
  Js.LF ++ "export const COUNTRY_CODE = '" ++
    localePart (p_locale translation) 1 ++ "';" ++
  Js.LF ++
  Js.LF ++ "const cachedMessages = {};" ++
  Js.LF.

(** The [data] of [writeTranslationUnit]. *)
Definition translationUnit (translation : ParsedTranslation)
    (intlLocale : string) : string :=
  unitHeader translation intlLocale ++
  Js.join ""
    (map (unitFormatterOf translation) (JsObject.keys (p_data translation))) ++
  Js.LF.

(** [writeTranslationUnit(parsedTranslations[0])]: reading [.data] of
    [undefined] throws. *)
Definition writeTranslationUnit (translation : option ParsedTranslation)
  : Async unit :=
  match translation with
  | None => reject TypeError
  | Some translation =>
      let filename := path_join H [distDir (i18n (project H)); "unit.js"] in
      intlLocale <- settled (toIntlLocale H (p_locale translation)) ;;
      let data := translationUnit translation intlLocale in
      fun log =>
        (outputFileAsync H filename data, (log ++ [Written filename data])%list)
  end.

(** [translation.data[key]] spliced into a template literal. *)
Definition printed (value : JsPrototype.Value string) : string :=
  match value with
  | JsPrototype.own text => text
  | JsPrototype.member name => printMember H name
  | JsPrototype.undefined => "undefined"
  end.

Definition getDocumentation (translations : list ParsedTranslation)
    (key : string) : string :=
  Js.LF ++ "/**" ++
  Js.join ""
    (map (fun translation =>
            Js.LF ++ " * `" ++ p_locale translation ++ "`: " ++
            printed (JsPrototype.read (p_data translation) key))
         translations) ++
  Js.LF ++ " */".

Definition declarationOf (translations : list ParsedTranslation)
    (defaultTranslation : ParsedTranslation) (key : string) : string :=
  Js.LF ++ getDocumentation translations key ++
  Js.LF ++ "  export function " ++ key ++ "(" ++
    dataParameter
      (JsPrototype.tree (JsPrototype.read (asts defaultTranslation) key)) ++
    "): string;".

Definition declarationHeader : string :=
  GENERATED_WARNING ++
  Js.LF ++ "declare module '" ++ module (i18n (project H)) ++ "' {" ++
  Js.LF ++ "  /**" ++
  Js.LF ++ "   * Your locale in the format `de_DE`, `en_US`, etc." ++
  Js.LF ++ "   */" ++
  Js.LF ++ "  export const LOCALE;" ++
  Js.LF ++
  Js.LF ++ "  /**" ++
  Js.LF ++ "   * Your locale in the format `de-DE`, `en-US`, etc." ++
  Js.LF ++ "   */" ++
  Js.LF ++ "  export const INTL_LOCALE;" ++
  Js.LF ++
  Js.LF ++ "  /**" ++
  Js.LF ++ "   * Your language code in the format `de`, `en`, etc." ++
  Js.LF ++ "   */" ++
  Js.LF ++ "  export const LANGUAGE_CODE;" ++
  Js.LF ++
  Js.LF ++ "  /**" ++
  Js.LF ++ "   * Your country code in the format `DE`, `US`, etc." ++
  Js.LF ++ "   */" ++
  Js.LF ++ "  export const COUNTRY_CODE;".

(** The [data] of [writeDeclaration]. *)
Definition declaration (translations : list ParsedTranslation)
    (defaultTranslation : ParsedTranslation) : string :=
  declarationHeader ++
  Js.join Js.LF
    (map (declarationOf translations defaultTranslation)
         (JsObject.keys (p_data defaultTranslation))) ++
  Js.LF ++ "}" ++
  Js.LF.

Definition declarationPath : string :=
  path_join H [distDir (i18n (project H)); "index.d.ts"].

(** [writeDeclaration(translations)]: [translations[0].data] throws on an
    empty array. *)
Definition writeDeclaration (translations : list ParsedTranslation)
  : Async unit :=
  match translations with
  | [] => reject TypeError
  | defaultTranslation :: _ =>
      let data := declaration translations defaultTranslation in
      fun log =>
        (outputFileAsync H declarationPath data,
         (log ++ [Written declarationPath data])%list)
  end.

Record TranslatedModule : Type := mkTranslatedModule {
  tm_cwd : string;
  tm_dir : string;
  tm_features : list string;
  localesAndLanguages : list string
}.

(** [a || b] on an optional string: the empty string is falsy too. *)
Definition orString (a : option string) (b : string) : string :=
  match a with
  | Some s => if String.eqb s "" then b else s
  | None => b
  end.

(** [a || b] on an optional array: every array is truthy. *)
Definition orList (a : option (list string)) (b : list string) : list string :=
  match a with
  | Some l => l
  | None => b
  end.

(** What the callback on a dependency's [package.json] pushes. *)
Definition dependencyModule (dep : string) (pkg : Pkg) : list TranslatedModule :=
  match pkg_ws_i18n pkg with
  | Some cfg =>
      [ {| tm_cwd := path_dirname H dep;
           tm_dir := orString (pkg_dir cfg) "i18n";
           tm_features := orList (pkg_features cfg) [""];
           localesAndLanguages := concatLanguages H (pkg_locales cfg) |} ]
  | None => []
  end.

Definition localModule : TranslatedModule :=
  let i18n := i18n (project H) in
  {| tm_cwd := process_cwd H;
     tm_dir := dir i18n;
     tm_features := orList (features i18n) [""];
     localesAndLanguages := concatLanguages H (locales i18n) |}.

(** The array [translatedModules] once the local project is pushed; the
    dependencies are taken in the order of [deps]. *)
Definition translatedModulesOf (deps : list string) (pkgs : list Pkg)
  : list TranslatedModule :=
  (flat_map (fun dp => dependencyModule (fst dp) (snd dp)) (combine deps pkgs)
   ++ [localModule])%list.

(** The array [readPromises]. *)
Definition readPromises (translatedModules : list TranslatedModule)
  : list (Result Translation) :=
  flat_map
    (fun translatedModule =>
       flat_map
         (fun feature =>
            map (fun localeOrLanguage =>
                   readTranslation (tm_cwd translatedModule)
                     (tm_dir translatedModule) localeOrLanguage feature)
                (localesAndLanguages translatedModule))
         (tm_features translatedModule))
    translatedModules.

Definition groupTranslations (targets : list string)
    (translations : list Translation) : list GroupedTranslation :=
  map (fun target =>
         {| g_locale := target;
            translations :=
              filter (fun translation =>
                        isMatchingLocaleOrLanguage H (locale translation) target)
                     translations |})
      targets.

(** [translations.reverse().reduce((acc, translation) =>
    Object.assign(acc, translation.data), {})]. *)
Definition mergeData (translations : list Translation) : TranslationMap :=
  fold_left (fun acc translation => JsObject.assign acc (data translation))
            (rev translations) JsObject.empty.

Definition mergeTranslations (grouped : list GroupedTranslation)
  : list Translation :=
  map (fun g => {| locale := g_locale g; data := mergeData (translations g) |})
      grouped.

(** The [forEach] that fills [asts]; [parser.parse] may throw. *)
Fixpoint parseKeys (data : TranslationMap) (keys : list string) (asts : AstMap)
  : Result AstMap :=
  match keys with
  | [] => Ok asts
  | key :: rest =>
      match JsObject.get data key with
      | Some text =>
          match parser_parse H text with
          | Ok ast => parseKeys data rest (JsObject.set asts key ast)
          | Throw e => Throw e
          end
      | None => Throw TypeError
      end
  end.

Definition parseTranslation (translation : Translation)
  : Result ParsedTranslation :=
  match parseKeys (data translation) (JsObject.keys (data translation))
                  JsObject.empty with
  | Ok asts =>
      Ok {| p_locale := locale translation;
            p_data := data translation;
            asts := asts |}
  | Throw e => Throw e
  end.

(** [mergedTranslations.map(...)]: the first [parser.parse] that throws
    ends the [map]. *)
Definition parseTranslations (merged : list Translation)
  : Result (list ParsedTranslation) :=
  allSettled (map parseTranslation merged).

(** Everything [compileI18n] computes before it touches the output
    directory. *)
Definition loadTranslations : Result (list ParsedTranslation) :=
  match globby H "node_modules/**/package.json" with
  | Throw e => Throw e
  | Ok deps =>
      match allSettled (map (readJsonAsync H) deps) with
      | Throw e => Throw e
      | Ok pkgs =>
          match allSettled (readPromises (translatedModulesOf deps pkgs)) with
          | Throw e => Throw e
          | Ok translations =>
              parseTranslations
                (mergeTranslations
                   (groupTranslations (locales (i18n (project H)))
                                      translations))
          end
      end
  end.

Definition remove (path : string) : Async unit :=
  fun log => (removeAsync H path, (log ++ [Removed path])%list).

Definition compileI18n : Async unit :=
  parsedTranslations <- settled loadTranslations ;;
  _ <- remove (distDir (i18n (project H))) ;;
  _ <- promiseAll
         (match parsedTranslations with
          | [] => []
          | defaultTranslation :: _ =>
              map (writeTranslation defaultTranslation) parsedTranslations
          end) ;;
  _ <- writeTranslationUnit (hd_error parsedTranslations) ;;
  if negb (String.eqb (entryExtension (project H)) "js") then
    writeDeclaration parsedTranslations
  else resolve tt.

End Compiler.

(** ** The statements of the specification, as definitions *)

Module Spec.

(** The marker that a formatter without a message returns. *)
Definition missingKey (key : string) : string :=
  "Missing key " ++ DQ ++ key ++ DQ ++ ".".

(** The placeholders among the elements of a pattern, in order: the
    elements that stand for an argument, not the pieces of text. *)
Fixpoint placeholdersOf (elements : list Element) : list Element :=
  match elements with
  | [] => []
  | messageTextElement _ :: rest => placeholdersOf rest
  | argumentElement id format :: rest =>
      argumentElement id format :: placeholdersOf rest
  end.

(** The placeholders of a message that argument-type inference visits:
    those of the pattern itself, not those inside the branches of a plural
    or select format. *)
Definition placeholders (ast : Ast) : list Element :=
  match ast with
  | messageFormatPattern elements => placeholdersOf elements
  end.

Definition placeholderName (element : Element) : string :=
  match element with
  | argumentElement id _ => id
  | messageTextElement _ => "undefined"
  end.

Definition isPlural (element : Element) : bool :=
  match element with
  | argumentElement _ (Some (pluralFormat _ _ _)) => true
  | _ => false
  end.

Definition selectOptions (element : Element)
  : option (list OptionalFormatPattern) :=
  match element with
  | argumentElement _ (Some (selectFormat options)) => Some options
  | _ => None
  end.

(** A quoted literal selector, with [string] for the [other] branch. *)
Definition selectorType (selector : string) : string :=
  if String.eqb selector "other" then "string" else "'" ++ selector ++ "'".

(** [number] for a plural placeholder, the union of the selector types for
    a select placeholder, [string] otherwise. *)
Definition inferredType (element : Element) : string :=
  if isPlural element then "number"
  else match selectOptions element with
       | Some options =>
           Js.join " | " (map (fun o => selectorType (selectorOf o)) options)
       | None => "string"
       end.

(** De-duplication by name: a placeholder stays, and no later placeholder
    of its name does. *)
Fixpoint distinctByName (elements : list Element) : list Element :=
  match elements with
  | [] => []
  | element :: rest =>
      element
      :: filter
           (fun later =>
              negb (String.eqb (placeholderName later)
                               (placeholderName element)))
           (distinctByName rest)
  end.

(** The type list of placeholders, one [name: type] entry each, between
    braces; nothing when there is no placeholder. *)
Definition shapeOf (elements : list Element) : string :=
  match elements with
  | [] => ""
  | _ :: _ =>
      "{ " ++
      Js.join ", "
        (map (fun e => placeholderName e ++ ": " ++ inferredType e) elements) ++
      " }"
  end.

(** The argument shape of a message: its placeholders are de-duplicated
    by name, then each one gets its inferred type. *)
Definition argumentShape (ast : Ast) : string :=
  shapeOf (distinctByName (placeholders ast)).

(** Every placeholder of a message, those inside the branches of plural
    and select formats included, in the order of the message text. *)
Fixpoint allPlaceholders (ast : Ast) : list Element :=
  match ast with
  | messageFormatPattern elements =>
      (fix ofElements (es : list Element) : list Element :=
         match es with
         | [] => []
         | messageTextElement _ :: rest => ofElements rest
         | argumentElement id format :: rest =>
             (argumentElement id format
              :: match format with
                 | Some (pluralFormat _ _ options)
                 | Some (selectFormat options) =>
                     (fix ofOptions (os : list OptionalFormatPattern)
                        : list Element :=
                        match os with
                        | [] => []
                        | optionalFormatPattern _ value :: more =>
                            (allPlaceholders value ++ ofOptions more)%list
                        end) options
                 | _ => []
                 end)
             ++ ofElements rest
         end%list) elements
  end.

(** The argument shape over every placeholder of the message. *)
Definition fullShape (ast : Ast) : string :=
  shapeOf (distinctByName (allPlaceholders ast)).

(** The first placeholder of a given name, in element order. *)
Fixpoint firstPlaceholder (name : string) (elements : list Element)
  : option Element :=
  match elements with
  | [] => None
  | argumentElement id format :: rest =>
      if String.eqb id name then Some (argumentElement id format)
      else firstPlaceholder name rest
  | messageTextElement _ :: rest => firstPlaceholder name rest
  end.

(** The first translation of a list, in discovery order, that defines a
    key. *)
Fixpoint firstDefining (key : string) (translations : list Translation)
  : option string :=
  match translations with
  | [] => None
  | translation :: rest =>
      match JsObject.get (data translation) key with
      | Some v => Some v
      | None => firstDefining key rest
      end
  end.

(** The last translation of a list, in discovery order, that defines a
    key. *)
Definition lastDefining (key : string) (translations : list Translation)
  : option string :=
  firstDefining key (rev translations).

(** A piece of text occurs in a generated file. *)
Definition occursIn (part whole : string) : Prop :=
  exists before after, whole = before ++ part ++ after.

Definition isWritten (e : Event) : bool :=
  match e with
  | Written _ _ => true
  | Removed _ => false
  end.

(** The per-locale modules that a run issues: one for every parsed
    translation whose locale [toIntlLocale] accepts, each built against
    the same default translation. *)
Definition moduleEvents (H : Host) (defaultTranslation : ParsedTranslation)
    (parsed : list ParsedTranslation) : list Event :=
  flat_map
    (fun translation =>
       match toIntlLocale H (p_locale translation) with
       | Ok intlLocale =>
           [Written
              (path_join H [distDir (i18n (project H));
                            p_locale translation ++ ".js"])
              (translationModule H defaultTranslation translation intlLocale)]
       | Throw _ => []
       end)
    parsed.

(** An event that writes a type declaration. *)
Definition isDeclaration (H : Host) (e : Event) : Prop :=
  exists translations defaultTranslation path,
    e = Written path (declaration H translations defaultTranslation).

End Spec.

(** ** Reading a run *)

(** A step that only ever appends events of one kind to the log. *)
Definition appends (P : Event -> Prop) {A : Type} (p : Async A) : Prop :=
  forall log, exists events,
    snd (p log) = (log ++ events)%list /\ Forall P events.

Definition written (e : Event) : Prop := Spec.isWritten e = true.

(** What [compileI18n] does once the output directory is removed. *)
Definition afterRemoval (H : Host) (parsed : list ParsedTranslation)
  : Async unit :=
  _ <- promiseAll
         (match parsed with
          | [] => []
          | d :: _ => map (writeTranslation H d) parsed
          end) ;;
  _ <- writeTranslationUnit H (hd_error parsed) ;;
  if negb (String.eqb (entryExtension (project H)) "js") then
    writeDeclaration H parsed
  else resolve tt.

(** ** A concrete project, to run the compiler on *)

Module Demo.

Definition upper (c : ascii) : ascii :=
  let n := N_of_ascii c in
  if ((97 <=? n) && (n <=? 122))%N then ascii_of_N (n - 32) else c.

(** A small [camelCase]: an underscore or a dash is dropped and the
    character after it is capitalised. *)
Fixpoint camelFrom (up : bool) (s : string) : string :=
  match s with
  | EmptyString => EmptyString
  | String c r =>
      if Ascii.eqb c "_" || Ascii.eqb c "-" then camelFrom true r
      else String (if up then upper c else c) (camelFrom false r)
  end.

Definition camel (s : string) : string := camelFrom false s.

(** One [key=value] line of a properties file. *)
Definition parseLine (line : string) : list (string * string) :=
  match Js.split "="%char line with
  | k :: v :: _ => [(k, v)]
  | _ => []
  end.

Definition parseProperties (text : string) : Result TranslationMap :=
  Ok (fold_left (fun acc kv => JsObject.set acc (fst kv) (snd kv))
                (flat_map parseLine (Js.split (ascii_of_nat 10) text))
                JsObject.empty).

(** A message is parsed as one piece of text, or as one plain placeholder
    when it is written [{name}]. *)
Definition parseMessage (text : string) : Result Ast :=
  match text with
  | String "{"%char r =>
      Ok (messageFormatPattern
            [argumentElement (hd "" (Js.split "}"%char r)) None])
  | _ => Ok (messageFormatPattern [messageTextElement text])
  end.

Definition stringify (ast : Ast) : string :=
  match ast with
  | messageFormatPattern [messageTextElement text] =>
      "{" ++ Js.LF ++ "  text: '" ++ text ++ "'" ++ Js.LF ++ "}"
  | _ => "{}"
  end.

(** A member of [Object.prototype] spliced into a template: the accessor
    [__proto__] gives the prototype object, every other member is a
    native function. *)
Definition memberText (name : string) : string :=
  if String.eqb name "__proto__" then "[object Object]"
  else "function " ++
       (if String.eqb name "constructor" then "Object" else name) ++
       "() { [native code] }".

(** stringify-object prints a function with [String] and the prototype
    object, which has no enumerable property, as [{}]. *)
Definition memberStringified (name : string) : string :=
  if String.eqb name "__proto__" then "{}" else memberText name.

Definition joinPath (parts : list string) : string :=
  Js.join "/" (filter (fun p => negb (String.eqb p "")) parts).

Definition dirname (path : string) : string :=
  Js.join "/" (removelast (Js.split "/"%char path)).

Definition language (locale : string) : string :=
  hd locale (Js.split "_"%char locale).

Definition withLanguages (locales : list string) : list string :=
  (locales ++ map language locales)%list.

Definition isMatching (localeOrLanguage target : string) : bool :=
  String.eqb localeOrLanguage target
  || String.eqb localeOrLanguage (language target).

Definition intlLocaleOf (locale : string) : Result string :=
  Ok (Js.join "-" (Js.split "_"%char locale)).

Definition ENOENT : JsError := mkError (Some "ENOENT") "no such file".
Definition EACCES : JsError := mkError (Some "EACCES") "permission denied".

(** The files of the project and of its one dependency: both define
    [greeting] for [de_DE]; the dependency spells a key in snake case. *)
Definition files (path : string) : Result string :=
  if String.eqb path "node_modules/dep/i18n/de_DE.properties"
  then Ok ("greeting=hi" ++ Js.LF ++ "sign_out=Abmelden")
  else if String.eqb path "/app/i18n/de_DE.properties"
  then Ok ("greeting=hello" ++ Js.LF ++ "signOut=Tschau" ++ Js.LF ++ "who={name}")
  else if String.eqb path "/app/i18n/en.properties"
  then Ok "onlyEnglish=only"
  else Throw ENOENT.

(** The same files, with one that cannot be read. *)
Definition lockedFiles (path : string) : Result string :=
  if String.eqb path "/app/i18n/de.properties" then Throw EACCES
  else files path.

Definition packageJson (path : string) : Result Pkg :=
  Ok {| pkg_ws_i18n :=
          Some {| pkg_dir := None;
                  pkg_features := None;
                  pkg_locales := ["de_DE"] |} |}.

Definition config : I18nConfig :=
  {| dir := "i18n";
     features := None;
     locales := ["de_DE"; "en"];
     distDir := "dist-i18n";
     module := "my-i18n" |}.

Definition host (extension : string) (fs : string -> Result string) : Host :=
  {| camelCase := camel;
     properties_parse := parseProperties;
     parser_parse := parseMessage;
     stringifyObject := stringify;
     stringifyMember := memberStringified;
     printMember := memberText;
     path_join := joinPath;
     path_dirname := dirname;
     concatLanguages := withLanguages;
     isMatchingLocaleOrLanguage := isMatching;
     toIntlLocale := intlLocaleOf;
     project := {| i18n := config; entryExtension := extension |};
     process_cwd := "/app";
     globby := fun _ => Ok ["node_modules/dep/package.json"];
     readJsonAsync := packageJson;
     readFileAsync := fs;
     removeAsync := fun _ => Ok tt;
     outputFileAsync := fun _ _ => Ok tt |}.

Definition tsHost : Host := host "ts" files.
Definition jsHost : Host := host "js" files.
Definition lockedHost : Host := host "ts" lockedFiles.

Definition source (locale : string) (entries : TranslationMap) : Translation :=
  {| locale := locale; data := entries |}.

(** Two sources for one locale, [A] discovered before [B]. *)
Definition A : Translation := source "de_DE" [("greeting", "hi")].
Definition B : Translation := source "de_DE" [("greeting", "hello")].

Definition sources : list Translation := [A; B].

(** What the two sources are merged into. *)
Definition merged : Translation := source "de_DE" [("greeting", "hi")].

Definition text (s : string) : Ast := messageFormatPattern [messageTextElement s].

(** What the loader returns for the [de_DE] files of the dependency and
    of the project. *)
Definition fromDependency : Translation :=
  source "de_DE" [("greeting", "hi"); ("signOut", "Abmelden")].

Definition fromProject : Translation :=
  source "de_DE"
    [("greeting", "hello"); ("signOut", "Tschau"); ("who", "{name}")].

(** Messages with placeholders: [{count, plural, ...}],
    [{gender, select, male {..} female {..} other {..}}], and one that uses
    the name [n] first as a plain placeholder and then as a plural. *)
Definition pluralMessage : Ast :=
  messageFormatPattern
    [messageTextElement "You have ";
     argumentElement "count"
       (Some (pluralFormat false 0
                [optionalFormatPattern "one" (text "one item");
                 optionalFormatPattern "other" (text "many items")]))].

Definition selectMessage : Ast :=
  messageFormatPattern
    [argumentElement "gender"
       (Some (selectFormat
                [optionalFormatPattern "male" (text "he");
                 optionalFormatPattern "female" (text "she");
                 optionalFormatPattern "other" (text "they")]))].

Definition repeatedMessage : Ast :=
  messageFormatPattern
    [argumentElement "n" None;
     messageTextElement " of ";
     argumentElement "n"
       (Some (pluralFormat false 0
                [optionalFormatPattern "other" (text "items")]))].

Definition dependencyPackage : Pkg :=
  {| pkg_ws_i18n :=
       Some {| pkg_dir := None;
               pkg_features := None;
               pkg_locales := ["de_DE"] |} |}.

(** The merged and the parsed translations of the project. *)
Definition mergedGerman : Translation :=
  source "de_DE"
    [("greeting", "hi"); ("signOut", "Abmelden"); ("who", "{name}")].

Definition mergedEnglish : Translation :=
  source "en" [("onlyEnglish", "only")].

Definition german : ParsedTranslation :=
  {| p_locale := "de_DE";
     p_data := data mergedGerman;
     asts := [("greeting", text "hi"); ("signOut", text "Abmelden");
              ("who", messageFormatPattern [argumentElement "name" None])] |}.

Definition english : ParsedTranslation :=
  {| p_locale := "en";
     p_data := data mergedEnglish;
     asts := [("onlyEnglish", text "only")] |}.

End Demo.

(** The module of a translation cannot be written: [toIntlLocale]
    rejects its locale, or the write of its file fails. *)
Definition moduleFails (H : Host) (d t : ParsedTranslation) : Prop :=
  match toIntlLocale H (p_locale t) with
  | Throw _ => True
  | Ok intl =>
      exists e,
        outputFileAsync H
          (path_join H [distDir (i18n (project H)); p_locale t ++ ".js"])
          (translationModule H d t intl) = Throw e
  end.

(** ** The bundler options of the unit build *)

Module UnitBuild.

(** [Object.assign({}, spaOptions, { entry: entryUnit, output: outputTest,
    devtool: devtoolTest })]. *)
Definition options {V : Type} (spaOptions : JsObject.t V)
    (entryUnit outputTest devtoolTest : V) : JsObject.t V :=
  JsObject.assign
    (JsObject.assign JsObject.empty spaOptions)
    [("entry", entryUnit); ("output", outputTest); ("devtool", devtoolTest)].

End UnitBuild.

(** ** More projects to run the compiler on *)

Module Cases.

Definition SyntaxError : JsError := mkError None "SyntaxError".

(** A parser that rejects a placeholder that is not closed. *)
Definition parseStrict (text : string) : Result Ast :=
  match text with
  | String "{"%char r =>
      if Js.mem "}" r then Demo.parseMessage text else Throw SyntaxError
  | _ => Demo.parseMessage text
  end.

(** A project whose [de_DE] file has a malformed message. *)
Definition malformedFiles (path : string) : Result string :=
  if String.eqb path "/app/i18n/de_DE.properties"
  then Ok ("greeting=hello" ++ Js.LF ++ "who={name")
  else Demo.files path.

Definition hostWith (parser : string -> Result Ast) (targets : list string)
    (fs : string -> Result string) : Host :=
  {| camelCase := Demo.camel;
     properties_parse := Demo.parseProperties;
     parser_parse := parser;
     stringifyObject := Demo.stringify;
     stringifyMember := Demo.memberStringified;
     printMember := Demo.memberText;
     path_join := Demo.joinPath;
     path_dirname := Demo.dirname;
     concatLanguages := Demo.withLanguages;
     isMatchingLocaleOrLanguage := Demo.isMatching;
     toIntlLocale := Demo.intlLocaleOf;
     project :=
       {| i18n :=
            {| dir := "i18n";
               features := None;
               locales := targets;
               distDir := "dist-i18n";
               module := "my-i18n" |};
          entryExtension := "ts" |};
     process_cwd := "/app";
     globby := fun _ => Ok ["node_modules/dep/package.json"];
     readJsonAsync := Demo.packageJson;
     readFileAsync := fs;
     removeAsync := fun _ => Ok tt;
     outputFileAsync := fun _ _ => Ok tt |}.

Definition malformedHost : Host :=
  hostWith parseStrict ["de_DE"; "en"] malformedFiles.

(** A project without target locales. *)
Definition noLocalesHost : Host := hostWith Demo.parseMessage [] Demo.files.

(** What the loader returns for the malformed project, and the merged
    translation of [de_DE]. *)
Definition malformedReads : list Translation :=
  [Demo.fromDependency;
   Demo.source "de" [];
   Demo.source "de_DE" [("greeting", "hello"); ("who", "{name")];
   Demo.source "en" [("onlyEnglish", "only")];
   Demo.source "de" [];
   Demo.source "en" [("onlyEnglish", "only")]].

Definition malformedMerged : Translation :=
  Demo.source "de_DE"
    [("greeting", "hi"); ("who", "{name"); ("signOut", "Abmelden")].

(** A project whose properties parser fails as if the file were
    missing. *)
Definition failingParserHost : Host :=
  {| camelCase := Demo.camel;
     properties_parse := fun _ => Throw Demo.ENOENT;
     parser_parse := Demo.parseMessage;
     stringifyObject := Demo.stringify;
     stringifyMember := Demo.memberStringified;
     printMember := Demo.memberText;
     path_join := Demo.joinPath;
     path_dirname := Demo.dirname;
     concatLanguages := Demo.withLanguages;
     isMatchingLocaleOrLanguage := Demo.isMatching;
     toIntlLocale := Demo.intlLocaleOf;
     project := project Demo.tsHost;
     process_cwd := "/app";
     globby := fun _ => Ok ["node_modules/dep/package.json"];
     readJsonAsync := Demo.packageJson;
     readFileAsync := Demo.files;
     removeAsync := fun _ => Ok tt;
     outputFileAsync := fun _ _ => Ok tt |}.

(** The project of [Demo] on a disk that refuses the module of [en]. *)
Definition refusingHost : Host :=
  {| camelCase := Demo.camel;
     properties_parse := Demo.parseProperties;
     parser_parse := Demo.parseMessage;
     stringifyObject := Demo.stringify;
     stringifyMember := Demo.memberStringified;
     printMember := Demo.memberText;
     path_join := Demo.joinPath;
     path_dirname := Demo.dirname;
     concatLanguages := Demo.withLanguages;
     isMatchingLocaleOrLanguage := Demo.isMatching;
     toIntlLocale := Demo.intlLocaleOf;
     project := project Demo.tsHost;
     process_cwd := "/app";
     globby := fun _ => Ok ["node_modules/dep/package.json"];
     readJsonAsync := Demo.packageJson;
     readFileAsync := Demo.files;
     removeAsync := fun _ => Ok tt;
     outputFileAsync :=
       fun path _ =>
         if String.eqb path "dist-i18n/en.js" then Throw Demo.EACCES
         else Ok tt |}.

(** A project without dependencies whose default locale has a message
    under the key [constructor] that the locale [en] does not have. *)
Definition inheritedFiles (path : string) : Result string :=
  if String.eqb path "/app/i18n/de_DE.properties"
  then Ok ("greeting=Hallo" ++ Js.LF ++ "constructor=Erbauer")
  else if String.eqb path "/app/i18n/en.properties"
  then Ok "greeting=Hello"
  else Throw Demo.ENOENT.

Definition inheritedHost : Host :=
  {| camelCase := Demo.camel;
     properties_parse := Demo.parseProperties;
     parser_parse := Demo.parseMessage;
     stringifyObject := Demo.stringify;
     stringifyMember := Demo.memberStringified;
     printMember := Demo.memberText;
     path_join := Demo.joinPath;
     path_dirname := Demo.dirname;
     concatLanguages := Demo.withLanguages;
     isMatchingLocaleOrLanguage := Demo.isMatching;
     toIntlLocale := Demo.intlLocaleOf;
     project := project Demo.tsHost;
     process_cwd := "/app";
     globby := fun _ => Ok [];
     readJsonAsync := Demo.packageJson;
     readFileAsync := inheritedFiles;
     removeAsync := fun _ => Ok tt;
     outputFileAsync := fun _ _ => Ok tt |}.

(** The parsed translations of that project. *)
Definition inheritedGerman : ParsedTranslation :=
  {| p_locale := "de_DE";
     p_data := [("greeting", "Hallo"); ("constructor", "Erbauer")];
     asts := [("greeting", Demo.text "Hallo");
              ("constructor", Demo.text "Erbauer")] |}.

Definition inheritedEnglish : ParsedTranslation :=
  {| p_locale := "en";
     p_data := [("greeting", "Hello")];
     asts := [("greeting", Demo.text "Hello")] |}.

(** A plural message with a placeholder inside its branches:
    [{count, plural, one {{name} has one item} other {{name} has many}}]. *)
Definition nestedMessage : Ast :=
  messageFormatPattern
    [argumentElement "count"
       (Some (pluralFormat false 0
                [optionalFormatPattern "one"
                   (messageFormatPattern
                      [argumentElement "name" None;
                       messageTextElement " has one item"]);
                 optionalFormatPattern "other"
                   (messageFormatPattern
                      [argumentElement "name" None;
                       messageTextElement " has many"])]))].

(** A file that spells one key in two ways. *)
Definition twoSpellings : TranslationMap :=
  [("sign_out", "first"); ("other", "x"); ("signOut", "second")].

End Cases.

(** * Properties *)

(** ** Property lists *)

Module JsObjectFacts.

Import JsObject.

Section Facts.

Context {V : Type}.

Implicit Types (o acc src : t V) (k : string) (v : V).

Lemma get_set_same o k v : get (set o k v) k = Some v.
Proof.
  induction o as [|[k' v'] r IH]; simpl.
  - now rewrite String.eqb_refl.
  - destruct (String.eqb k' k) eqn:E; simpl; rewrite E; auto.
Qed.

Lemma get_set_other o k k' v : k <> k' -> get (set o k v) k' = get o k'.
Proof.
  intros Hne. induction o as [|[k0 v0] r IH]; simpl.
  - destruct (String.eqb k k') eqn:E; auto.
    apply String.eqb_eq in E. contradiction.
  - destruct (String.eqb k0 k) eqn:E; simpl.
    + apply String.eqb_eq in E. subst k0.
      destruct (String.eqb k k') eqn:E'; auto.
      apply String.eqb_eq in E'. contradiction.
    + now rewrite IH.
Qed.

Lemma get_set o k k' v :
  get (set o k v) k' = if String.eqb k k' then Some v else get o k'.
Proof.
  destruct (String.eqb k k') eqn:E.
  - apply String.eqb_eq in E. subst. apply get_set_same.
  - apply String.eqb_neq in E. now apply get_set_other.
Qed.

Lemma in_fst_get o k : In k (map fst o) <-> get o k <> None.
Proof.
  induction o as [|[k' v'] r IH]; simpl.
  - split; [tauto | congruence].
  - destruct (String.eqb k' k) eqn:E.
    + apply String.eqb_eq in E. split; [intros _; discriminate | auto].
    + apply String.eqb_neq in E. rewrite <- IH. tauto.
Qed.

End Facts.

Lemma in_insertIndex x e l : In x (insertIndex e l) <-> x = e \/ In x l.
Proof.
  induction l as [|y r IH]; simpl.
  - intuition.
  - destruct (fst e <=? fst y)%N; simpl; rewrite ?IH; intuition.
Qed.

Lemma in_indexKeys n k ks :
  In (n, k) (indexKeys ks) <-> In k ks /\ arrayIndex k = Some n.
Proof.
  induction ks as [|k0 r IH]; simpl.
  - tauto.
  - destruct (arrayIndex k0) as [m|] eqn:E.
    + rewrite in_insertIndex, IH. split.
      * intros [Heq | [Hin Hi]]; [inversion Heq; subst; auto | auto].
      * intros [[-> | Hin] Hi]; [left; congruence | auto].
    + rewrite IH. split; [tauto |].
      intros [[-> | Hin] Hi]; [congruence | auto].
Qed.

Lemma in_orderKeys k ks : In k (orderKeys ks) <-> In k ks.
Proof.
  unfold orderKeys. rewrite in_app_iff, in_map_iff, filter_In. split.
  - intros [[[n k'] [Hk Hin]] | [Hin _]]; auto.
    simpl in Hk. subst k'. now apply in_indexKeys in Hin.
  - intros Hin. unfold isNamed. destruct (arrayIndex k) as [n|] eqn:E.
    + left. exists (n, k). split; auto. now apply in_indexKeys.
    + right. auto.
Qed.

Lemma in_keys {V : Type} (o : t V) k : In k (keys o) <-> get o k <> None.
Proof. unfold keys. now rewrite in_orderKeys, in_fst_get. Qed.

(** Assigning the properties of [src] that are listed in [ks]. *)
Lemma get_assign_from {V : Type} (src : t V) k ks :
  forall acc,
    get (fold_left
           (fun a k' => match get src k' with Some v => set a k' v | None => a end)
           ks acc) k
    = if in_dec string_dec k ks
      then match get src k with Some v => Some v | None => get acc k end
      else get acc k.
Proof.
  induction ks as [|k0 r IH]; intros acc; simpl; auto.
  rewrite IH. destruct (string_dec k0 k) as [->|Hne].
  - destruct (get src k) as [v|] eqn:E.
    + rewrite get_set_same. now destruct (in_dec string_dec k r).
    + now destruct (in_dec string_dec k r).
  - destruct (get src k0) as [v0|] eqn:E0;
      rewrite ?get_set_other by assumption;
      now destruct (in_dec string_dec k r).
Qed.

(** [Object.assign] overrides exactly the properties that [src] has. *)
Lemma get_assign {V : Type} (acc src : t V) k :
  get (assign acc src) k
  = match get src k with Some v => Some v | None => get acc k end.
Proof.
  unfold assign. rewrite get_assign_from.
  destruct (in_dec string_dec k (keys src)) as [Hin|Hout]; auto.
  destruct (get src k) eqn:E; auto.
  exfalso. apply Hout, in_keys. congruence.
Qed.

End JsObjectFacts.

(** ** Merging *)

Section Merge.

Variable H : Host.

Lemma mergeData_cons translation rest :
  mergeData (translation :: rest)
  = JsObject.assign (mergeData rest) (data translation).
Proof.
  unfold mergeData. simpl. now rewrite fold_left_app.
Qed.

(** The merged object holds, for every key, the value of the first
    translation that defines it. *)
Lemma get_mergeData translations k :
  JsObject.get (mergeData translations) k = Spec.firstDefining k translations.
Proof.
  induction translations as [|t rest IH].
  - reflexivity.
  - rewrite mergeData_cons, JsObjectFacts.get_assign. simpl.
    now destruct (JsObject.get (data t) k).
Qed.

Lemma firstDefining_filter_skip (keep : Translation -> bool) k before after :
  (forall t, In t before -> keep t = true -> JsObject.get (data t) k = None) ->
  Spec.firstDefining k (filter keep (before ++ after))
  = Spec.firstDefining k (filter keep after).
Proof.
  intros Hskip. induction before as [|t rest IH]; simpl; auto.
  destruct (keep t) eqn:E; simpl.
  - rewrite (Hskip t); auto.
    + apply IH. intros; apply Hskip; simpl; auto.
    + simpl; auto.
  - apply IH. intros; apply Hskip; simpl; auto.
Qed.

Lemma in_mergeTranslations m targets all :
  In m (mergeTranslations (groupTranslations H targets all)) ->
  data m
  = mergeData
      (filter (fun t => isMatchingLocaleOrLanguage H (locale t) (locale m)) all).
Proof.
  unfold mergeTranslations, groupTranslations. rewrite map_map, in_map_iff.
  intros [target [<- _]]. reflexivity.
Qed.

(** C1, as the code has it: for every target locale the merged mapping
    holds, for each key, the value of the FIRST discovered source that
    matches the locale and defines the key.  So of two matching sources
    [A] and [B] that both define a key, [A] discovered before [B] and no
    matching source before [A] defining it, the merged mapping holds the
    value of [A]. *)
Theorem C1_first_discovered_source_wins targets all m k :
  In m (mergeTranslations (groupTranslations H targets all)) ->
  JsObject.get (data m) k
  = Spec.firstDefining k
      (filter (fun t => isMatchingLocaleOrLanguage H (locale t) (locale m)) all)
  /\ forall before A between B after vA vB,
       all = (before ++ A :: between ++ B :: after)%list ->
       isMatchingLocaleOrLanguage H (locale A) (locale m) = true ->
       isMatchingLocaleOrLanguage H (locale B) (locale m) = true ->
       (forall t, In t before ->
                  isMatchingLocaleOrLanguage H (locale t) (locale m) = true ->
                  JsObject.get (data t) k = None) ->
       JsObject.get (data A) k = Some vA ->
       JsObject.get (data B) k = Some vB ->
       JsObject.get (data m) k = Some vA.
Proof.
  intros Hin. apply in_mergeTranslations in Hin.
  rewrite Hin, get_mergeData. split; [reflexivity|].
  intros before A between B after vA vB -> HA _ Hskip HvA _.
  rewrite firstDefining_filter_skip by exact Hskip.
  simpl. rewrite HA. simpl. now rewrite HvA.
Qed.

End Merge.

Lemma C1_first_discovered_source_wins_witness :
  JsObject.get (data Demo.merged) "greeting"
  = Spec.firstDefining "greeting"
      (filter (fun t => isMatchingLocaleOrLanguage Demo.tsHost (locale t)
                          (locale Demo.merged))
              Demo.sources)
  /\ JsObject.get (data Demo.merged) "greeting" = Some "hi".
Proof.
  assert (Hin : In Demo.merged
                  (mergeTranslations
                     (groupTranslations Demo.tsHost ["de_DE"] Demo.sources)))
    by (vm_compute; left; reflexivity).
  split.
  - apply (C1_first_discovered_source_wins Demo.tsHost ["de_DE"] Demo.sources
             Demo.merged "greeting" Hin).
  - apply (proj2 (C1_first_discovered_source_wins Demo.tsHost ["de_DE"]
                    Demo.sources Demo.merged "greeting" Hin)
             [] Demo.A [] Demo.B [] "hi" "hello");
      try reflexivity.
    intros t [].
Defined.

(** C1 as the specification states it fails: [A] is discovered before
    [B], both match [de_DE] and define [greeting], and the merged mapping
    holds the value of [A], not the value of [B]. *)
Lemma C1_last_discovered_source_loses :
  Demo.sources = [Demo.A; Demo.B]
  /\ JsObject.get (data Demo.A) "greeting" = Some "hi"
  /\ JsObject.get (data Demo.B) "greeting" = Some "hello"
  /\ Spec.lastDefining "greeting" Demo.sources = Some "hello"
  /\ map data (mergeTranslations
                 (groupTranslations Demo.tsHost ["de_DE"] Demo.sources))
     = [[("greeting", "hi")]]
  /\ JsObject.get (mergeData Demo.sources) "greeting" <> Some "hello".
Proof.
  repeat split; try reflexivity. vm_compute. discriminate.
Qed.

(** The same through the whole pipeline: the dependency is discovered
    before the local project, and its [greeting] is the one compiled. *)
Lemma local_project_is_outranked :
  Demo.files "node_modules/dep/i18n/de_DE.properties"
  = Ok ("greeting=hi" ++ Js.LF ++ "sign_out=Abmelden")
  /\ (exists rest,
        Demo.files "/app/i18n/de_DE.properties"
        = Ok ("greeting=hello" ++ rest))
  /\ (exists parsed others,
        loadTranslations Demo.tsHost = Ok (parsed :: others)
        /\ p_locale parsed = "de_DE"
        /\ JsObject.get (p_data parsed) "greeting" = Some "hi").
Proof.
  split; [reflexivity|]. split.
  - eexists. reflexivity.
  - do 2 eexists. split; [vm_compute; reflexivity|]. split; reflexivity.
Qed.

(** ** Generated text *)

Module StringFacts.

Lemma append_assoc (a b c : string) : (a ++ b) ++ c = a ++ b ++ c.
Proof. induction a as [|x a IH]; simpl; [reflexivity | now rewrite IH]. Qed.

Lemma append_empty_r (a : string) : a ++ "" = a.
Proof. induction a as [|x a IH]; simpl; [reflexivity | now rewrite IH]. Qed.

Lemma occursIn_refl (part : string) : Spec.occursIn part part.
Proof. exists "", "". simpl. now rewrite append_empty_r. Qed.

Lemma occursIn_skip (part x whole : string) :
  Spec.occursIn part whole -> Spec.occursIn part (x ++ whole).
Proof.
  intros [b [a ->]]. exists (x ++ b), a. now rewrite append_assoc.
Qed.

Lemma occursIn_before (part whole y : string) :
  Spec.occursIn part whole -> Spec.occursIn part (whole ++ y).
Proof.
  intros [b [a ->]]. exists b, (a ++ y). now rewrite !append_assoc.
Qed.

Lemma occursIn_concat (sep part : string) (parts : list string) :
  In part parts -> Spec.occursIn part (Js.join sep parts).
Proof.
  unfold Js.join. induction parts as [|x r IH]; intros Hin; [destruct Hin|].
  destruct Hin as [-> | Hin].
  - destruct r as [|y r']; simpl.
    + apply occursIn_refl.
    + apply occursIn_before, occursIn_refl.
  - destruct r as [|y r']; [destruct Hin|].
    change (String.concat sep (x :: y :: r'))
      with (x ++ sep ++ String.concat sep (y :: r')).
    now apply occursIn_skip, occursIn_skip, IH.
Qed.

Lemma split_without sep (s : string) :
  Js.mem sep s = false -> Js.split sep s = [s].
Proof.
  induction s as [|c r IH]; simpl; [reflexivity|].
  intros Hm. apply orb_false_iff in Hm. destruct Hm as [Hc Hr].
  rewrite Hc, IH by assumption. reflexivity.
Qed.

End StringFacts.

(** Finds a piece of text in a right-nested chain of appended pieces. *)
Ltac normalize_append :=
  repeat (progress cbn [append] || rewrite StringFacts.append_assoc).

Ltac occurs_here :=
  exists EmptyString; eexists; normalize_append; reflexivity.

Ltac occurs_search :=
  first [ occurs_here | apply StringFacts.occursIn_skip; occurs_search ].

Section Emission.

Variable H : Host.

Lemma formatterOf_occurs defaultTranslation translation intlLocale key :
  In key (JsObject.keys (p_data defaultTranslation)) ->
  Spec.occursIn (formatterOf H translation key)
                (translationModule H defaultTranslation translation intlLocale).
Proof.
  intros Hin. unfold translationModule.
  apply StringFacts.occursIn_skip, StringFacts.occursIn_before.
  apply StringFacts.occursIn_concat. now apply in_map.
Qed.

Lemma read_own {V : Type} (o : JsObject.t V) k v :
  JsObject.get o k = Some v -> JsPrototype.read o k = JsPrototype.own v.
Proof. intros E. unfold JsPrototype.read. now rewrite E. Qed.

Lemma read_undefined {V : Type} (o : JsObject.t V) k :
  JsObject.get o k = None -> JsPrototype.isMember k = false ->
  JsPrototype.read o k = JsPrototype.undefined.
Proof. intros E Hm. unfold JsPrototype.read. now rewrite E, Hm. Qed.

Lemma read_member {V : Type} (o : JsObject.t V) k :
  JsObject.get o k = None -> JsPrototype.isMember k = true ->
  JsPrototype.read o k = JsPrototype.member k.
Proof. intros E Hm. unfold JsPrototype.read. now rewrite E, Hm. Qed.

(** [hasArguments] sees of [o[k]] what it sees of the own property. *)
Lemma tree_read {V : Type} (o : JsObject.t V) k :
  JsPrototype.tree (JsPrototype.read o k) = JsObject.get o k.
Proof.
  unfold JsPrototype.read. destruct (JsObject.get o k); [reflexivity|].
  now destruct (JsPrototype.isMember k).
Qed.

Lemma formatterOf_missing translation key :
  JsObject.get (asts translation) key = None ->
  JsPrototype.isMember key = false ->
  formatterOf H translation key
  = Js.LF ++ "myModule." ++ key ++ " = function() {return '" ++
    Spec.missingKey key ++ "';" ++ Js.LF ++ "};" ++ Js.LF.
Proof.
  intros Hnone Hm. unfold formatterOf, Spec.missingKey, dataParameter.
  rewrite (read_undefined _ _ Hnone Hm). cbn [JsPrototype.tree stringified
    hasArguments append].
  now rewrite !StringFacts.append_assoc.
Qed.

End Emission.

(** ** The log of a run *)

Section Log.

Variable H : Host.

Section Appends.

Variable P : Event -> Prop.

Lemma appends_settled {A : Type} (r : Result A) : appends P (settled r).
Proof. intros log. exists []. simpl. now rewrite app_nil_r. Qed.

Lemma appends_await {A B : Type} (p : Async A) (k : A -> Async B) :
  appends P p -> (forall a, appends P (k a)) -> appends P (await p k).
Proof.
  intros Hp Hk log. unfold await.
  destruct (Hp log) as [w1 [E1 F1]].
  destruct (p log) as [[a|e] log1]; simpl in E1; subst log1.
  - destruct (Hk a (log ++ w1)%list) as [w2 [E2 F2]].
    exists (w1 ++ w2)%list. rewrite E2, app_assoc. split; auto.
    apply Forall_app; auto.
  - exists w1. auto.
Qed.

Lemma appends_output {A : Type} (r : Result A) path content :
  P (Written path content) ->
  appends P (fun log => (r, (log ++ [Written path content])%list)).
Proof.
  intros HP log. exists [Written path content]. split; auto.
Qed.

Lemma appends_promiseAll {A : Type} (ps : list (Async A)) :
  Forall (appends P) ps -> appends P (promiseAll ps).
Proof.
  induction 1 as [|p r Hp Hr IH]; intros log; simpl.
  - exists []. simpl. now rewrite app_nil_r.
  - destruct (Hp log) as [w1 [E1 F1]].
    destruct (p log) as [x log1]; simpl in E1; subst log1.
    destruct (IH (log ++ w1)%list) as [w2 [E2 F2]].
    destruct (promiseAll r (log ++ w1)%list) as [xs log2]; simpl in E2; subst.
    exists (w1 ++ w2)%list. simpl. rewrite app_assoc. split; auto.
    apply Forall_app; auto.
Qed.

(** Every step after the removal is made of the three writers. *)
Lemma appends_afterRemoval parsed :
  (forall d t intl path,
     P (Written path (translationModule H d t intl))) ->
  (forall t intl path, P (Written path (translationUnit H t intl))) ->
  (entryExtension (project H) <> "js" ->
   forall d path, P (Written path (declaration H parsed d))) ->
  appends P (afterRemoval H parsed).
Proof.
  intros Hmodule Hunit Hdeclaration.
  unfold afterRemoval. apply appends_await.
  - apply appends_promiseAll. destruct parsed as [|d r]; [constructor|].
    apply Forall_forall. intros p Hp. apply in_map_iff in Hp.
    destruct Hp as [t [<- _]]. unfold writeTranslation.
    apply appends_await; [apply appends_settled|].
    intros intl. apply appends_output, Hmodule.
  - intros _. apply appends_await.
    + destruct (hd_error parsed) as [t|]; simpl.
      * apply appends_await; [apply appends_settled|].
        intros intl. apply appends_output, Hunit.
      * apply (appends_settled (Throw TypeError)).
    + intros _.
      destruct (String.eqb (entryExtension (project H)) "js") eqn:E; simpl.
      * apply (appends_settled (Ok tt)).
      * apply String.eqb_neq in E. destruct parsed as [|d r]; simpl.
        -- apply (appends_settled (Throw TypeError)).
        -- apply appends_output, Hdeclaration, E.
Qed.

End Appends.

(** The three ways a run can go. *)
Lemma compileI18n_cases log :
  (exists e, loadTranslations H = Throw e
             /\ compileI18n H log = (Throw e, log))
  \/ (exists parsed e,
        loadTranslations H = Ok parsed
        /\ removeAsync H (distDir (i18n (project H))) = Throw e
        /\ compileI18n H log
           = (Throw e, (log ++ [Removed (distDir (i18n (project H)))])%list))
  \/ (exists parsed,
        loadTranslations H = Ok parsed
        /\ removeAsync H (distDir (i18n (project H))) = Ok tt
        /\ compileI18n H log
           = afterRemoval H parsed
               (log ++ [Removed (distDir (i18n (project H)))])%list).
Proof.
  unfold compileI18n, afterRemoval, await, settled, remove.
  destruct (loadTranslations H) as [parsed|e].
  - right. destruct (removeAsync H (distDir (i18n (project H)))) as [[]|e].
    + right. exists parsed. auto.
    + left. exists parsed, e. auto.
  - left. exists e. auto.
Qed.

(** C5: in every run, whatever is written is written after the output
    directory was removed, and only when the removal succeeded: the log of
    a run that contains a write starts with the removal of [distDir], the
    removal returned normally, and everything between the removal and that
    write is a write too. *)
Theorem C5_removal_precedes_every_write before path content after :
  snd (compileI18n H []) = (before ++ Written path content :: after)%list ->
  removeAsync H (distDir (i18n (project H))) = Ok tt
  /\ exists writes,
       before = Removed (distDir (i18n (project H))) :: writes
       /\ Forall written writes.
Proof.
  intros Hlog.
  destruct (compileI18n_cases []) as [[e [_ E]] | [[ps [e [_ [_ E]]]] | [ps [_ [Hrm E]]]]];
    rewrite E in Hlog; simpl in Hlog.
  - destruct before; discriminate.
  - destruct before as [|x [|y r]]; discriminate.
  - split; [assumption|].
    destruct (@appends_afterRemoval written ps) with
      (log := [Removed (distDir (i18n (project H)))]) as [ws [Ews Fws]];
      try (intros; reflexivity).
    rewrite Ews in Hlog. simpl in Hlog.
    destruct before as [|x r]; [discriminate|].
    injection Hlog as <- Hws. exists r. split; [reflexivity|].
    rewrite Hws in Fws. now apply Forall_app in Fws.
Qed.

End Log.

Lemma C5_removal_precedes_every_write_witness :
  removeAsync Demo.tsHost (distDir (i18n (project Demo.tsHost))) = Ok tt
  /\ exists writes,
       [Removed "dist-i18n"]
       = Removed (distDir (i18n (project Demo.tsHost))) :: writes
       /\ Forall written writes.
Proof.
  eapply (C5_removal_precedes_every_write Demo.tsHost
            [Removed "dist-i18n"] "dist-i18n/de_DE.js").
  lazy. reflexivity.
Defined.

(** ** When the declaration is written *)

Section Declaration.

Variable H : Host.

Lemma module_is_not_declaration d t intl ts d' :
  translationModule H d t intl <> declaration H ts d'.
Proof.
  unfold translationModule, moduleHeader, declaration, declarationHeader,
    GENERATED_WARNING, Js.LF.
  rewrite !StringFacts.append_assoc. cbn [append]. intros E.
  repeat (injection E as _ E). discriminate E.
Qed.

Lemma unit_is_not_declaration t intl ts d' :
  translationUnit H t intl <> declaration H ts d'.
Proof.
  unfold translationUnit, unitHeader, declaration, declarationHeader,
    GENERATED_WARNING, Js.LF.
  rewrite !StringFacts.append_assoc. cbn [append]. intros E.
  repeat (injection E as _ E). discriminate E.
Qed.

Lemma written_content p c q c' : Written p c = Written q c' -> c = c'.
Proof.
  intros E.
  exact (f_equal (fun e => match e with
                           | Written _ x => x
                           | Removed _ => EmptyString
                           end) E).
Qed.

Lemma occursIn_trans a b c :
  Spec.occursIn a b -> Spec.occursIn b c -> Spec.occursIn a c.
Proof.
  intros [b1 [a1 ->]] [b2 [a2 ->]]. exists (b2 ++ b1), (a1 ++ a2).
  now rewrite !StringFacts.append_assoc.
Qed.

(** The declaration has one [export function] for every key of the
    default translation. *)
Lemma declaration_lists_key ts d key :
  In key (JsObject.keys (p_data d)) ->
  Spec.occursIn
    ("  export function " ++ key ++ "(" ++
     dataParameter (JsObject.get (asts d) key) ++ "): string;")
    (declaration H ts d).
Proof.
  intros Hin. apply occursIn_trans with (b := declarationOf H ts d key).
  - unfold declarationOf. rewrite tree_read.
    do 3 apply StringFacts.occursIn_skip. apply StringFacts.occursIn_refl.
  - unfold declaration.
    apply StringFacts.occursIn_skip, StringFacts.occursIn_before.
    apply StringFacts.occursIn_concat. now apply in_map.
Qed.

(** With entry extension [js] no run writes a declaration, whether it
    succeeds or not. *)
Lemma no_declaration_for_js e :
  entryExtension (project H) = "js" ->
  In e (snd (compileI18n H [])) -> ~ Spec.isDeclaration H e.
Proof.
  intros Hjs Hin.
  assert (Hremoved : forall p, ~ Spec.isDeclaration H (Removed p))
    by (intros p [ts [d [q E]]]; discriminate).
  destruct (compileI18n_cases H []) as [[x [_ E]] | [[ps [x [_ [_ E]]]] | [ps [_ [_ E]]]]];
    rewrite E in Hin; simpl in Hin.
  - destruct Hin.
  - destruct Hin as [<- | []]. apply Hremoved.
  - destruct (@appends_afterRemoval H (fun e => ~ Spec.isDeclaration H e) ps)
      with (log := [Removed (distDir (i18n (project H)))]) as [ws [Ews Fws]].
    + intros d t intl path [ts [d' [q E']]]. apply written_content in E'.
      now apply module_is_not_declaration in E'.
    + intros t intl path [ts [d' [q E']]]. apply written_content in E'.
      now apply unit_is_not_declaration in E'.
    + intros Hne. contradiction.
    + rewrite Ews in Hin. simpl in Hin. destruct Hin as [<- | Hin].
      * apply Hremoved.
      * rewrite Forall_forall in Fws. now apply Fws.
Qed.

(** A run that succeeds with another entry extension ends with the write
    of the declaration. *)
Lemma afterRemoval_declaration parsed log :
  fst (afterRemoval H parsed log) = Ok tt ->
  entryExtension (project H) <> "js" ->
  exists d rest before,
    parsed = d :: rest
    /\ snd (afterRemoval H parsed log)
       = (before ++ [Written (declarationPath H) (declaration H parsed d)])%list.
Proof.
  intros Hok Hne. apply String.eqb_neq in Hne.
  unfold afterRemoval, await in *. rewrite Hne in *. simpl negb in *.
  destruct (promiseAll _ log) as [[l|e] log1]; [|discriminate].
  destruct parsed as [|d rest]; simpl hd_error in *.
  - simpl in Hok. discriminate.
  - destruct (writeTranslationUnit H (Some d) log1) as [[u|e] log2];
      [|discriminate].
    exists d, rest, log2. split; reflexivity.
Qed.

(** C6: a run of [compileI18n] that succeeds writes the declaration if
    and only if the entry extension is not [js]; the declaration is then
    the last file written and has an [export function] for every key of
    the default translation. *)
Theorem C6_declaration_iff_not_js :
  fst (compileI18n H []) = Ok tt ->
  ((exists e, In e (snd (compileI18n H [])) /\ Spec.isDeclaration H e)
   <-> entryExtension (project H) <> "js")
  /\ (entryExtension (project H) <> "js" ->
      exists d rest before,
        loadTranslations H = Ok (d :: rest)
        /\ snd (compileI18n H [])
           = (before ++
              [Written (declarationPath H) (declaration H (d :: rest) d)])%list
        /\ forall key,
             In key (JsObject.keys (p_data d)) ->
             Spec.occursIn
               ("  export function " ++ key ++ "(" ++
                dataParameter (JsObject.get (asts d) key) ++ "): string;")
               (declaration H (d :: rest) d)).
Proof.
  intros Hok.
  assert (Hlast : entryExtension (project H) <> "js" ->
      exists d rest before,
        loadTranslations H = Ok (d :: rest)
        /\ snd (compileI18n H [])
           = (before ++
              [Written (declarationPath H) (declaration H (d :: rest) d)])%list).
  { intros Hne.
    destruct (compileI18n_cases H []) as [[x [_ E]] | [[ps [x [_ [_ E]]]] | [ps [Hload [_ E]]]]];
      rewrite E in Hok |- *; try discriminate.
    destruct (afterRemoval_declaration _ _ Hok Hne) as [d [rest [before [-> Elog]]]].
    exists d, rest, before. auto. }
  split; [split|].
  - intros [e [Hin Hdecl]] Hjs. exact (no_declaration_for_js Hjs Hin Hdecl).
  - intros Hne. destruct (Hlast Hne) as [d [rest [before [_ Elog]]]].
    exists (Written (declarationPath H) (declaration H (d :: rest) d)). split.
    + rewrite Elog. apply in_or_app. right. left. reflexivity.
    + exists (d :: rest), d, (declarationPath H). reflexivity.
  - intros Hne. destruct (Hlast Hne) as [d [rest [before [Hload Elog]]]].
    exists d, rest, before. repeat split; auto.
    intros key Hin. now apply declaration_lists_key.
Qed.

End Declaration.

Lemma C6_declaration_iff_not_js_witness :
  ((exists e, In e (snd (compileI18n Demo.tsHost []))
              /\ Spec.isDeclaration Demo.tsHost e)
   <-> entryExtension (project Demo.tsHost) <> "js")
  /\ ((exists e, In e (snd (compileI18n Demo.jsHost []))
                 /\ Spec.isDeclaration Demo.jsHost e)
      <-> entryExtension (project Demo.jsHost) <> "js").
Proof.
  split.
  - apply (C6_declaration_iff_not_js Demo.tsHost). vm_compute. reflexivity.
  - apply (C6_declaration_iff_not_js Demo.jsHost). vm_compute. reflexivity.
Defined.

(** ** The keys of the generated modules *)

Section Keys.

Variable H : Host.

Lemma parseKeys_defined data keys start parsed :
  parseKeys H data keys start = Ok parsed ->
  forall k,
    JsObject.get parsed k <> None
    <-> In k keys \/ JsObject.get start k <> None.
Proof.
  revert start. induction keys as [|k0 r IH]; intros start; simpl.
  - intros [= <-] k. tauto.
  - destruct (JsObject.get data k0) as [text|]; [|discriminate].
    destruct (parser_parse H text) as [ast|e]; [|discriminate].
    intros Hparse k. rewrite (IH _ Hparse k), JsObjectFacts.get_set.
    destruct (String.eqb k0 k) eqn:E.
    + apply String.eqb_eq in E. split; auto. intros _. right. discriminate.
    + apply String.eqb_neq in E. tauto.
Qed.

(** A parsed translation has a message tree for exactly the keys of its
    data. *)
Lemma parseTranslation_asts merged parsed :
  parseTranslation H merged = Ok parsed ->
  p_locale parsed = locale merged
  /\ p_data parsed = data merged
  /\ forall k,
       JsObject.get (asts parsed) k = None
       <-> JsObject.get (p_data parsed) k = None.
Proof.
  unfold parseTranslation.
  destruct (parseKeys H _ _ _) as [a|e] eqn:E; [|discriminate].
  intros [= <-]. simpl. repeat split.
  - intros Hnone. destruct (JsObject.get (data merged) k) eqn:Ek; auto.
    exfalso. apply (proj2 (parseKeys_defined _ _ _ E k)); auto.
    left. apply JsObjectFacts.in_keys. congruence.
  - intros Hnone. destruct (JsObject.get a k) eqn:Ek; auto.
    exfalso.
    destruct (proj1 (parseKeys_defined _ _ _ E k)) as [Hin | Hstart];
      try congruence.
    + apply JsObjectFacts.in_keys in Hin. contradiction.
    + simpl in Hstart. contradiction.
Qed.

Lemma formatterOf_ext t other key :
  JsObject.get (asts other) key = JsObject.get (asts t) key ->
  formatterOf H other key = formatterOf H t key.
Proof. intros E. unfold formatterOf, JsPrototype.read. now rewrite E. Qed.

Lemma formatterOf_named t key :
  Spec.occursIn (Js.LF ++ "myModule." ++ key ++ " = function(")
                (formatterOf H t key).
Proof.
  unfold formatterOf. occurs_here.
Qed.

(** Whatever the locale of a per-locale module, its formatters are those
    of the keys of the default translation, in that order; a key outside
    the default translation has no formatter and no influence on the
    module, and a default key without a message in the locale gets the
    missing-key formatter unless it names a member of
    [Object.prototype]. *)
Lemma module_formatters_follow_default_keys d merged t intl :
  parseTranslation H merged = Ok t ->
  translationModule H d t intl
  = moduleHeader t intl ++
    Js.join "" (map (formatterOf H t) (JsObject.keys (p_data d))) ++
    moduleFooter
  /\ (forall key,
        In key (JsObject.keys (p_data d)) ->
        Spec.occursIn (Js.LF ++ "myModule." ++ key ++ " = function(")
                      (translationModule H d t intl))
  /\ (forall other,
        p_locale other = p_locale t ->
        (forall key, In key (JsObject.keys (p_data d)) ->
                     JsObject.get (asts other) key = JsObject.get (asts t) key) ->
        translationModule H d other intl = translationModule H d t intl)
  /\ (forall key ast,
        ~ In key (JsObject.keys (p_data d)) ->
        translationModule H d
          {| p_locale := p_locale t;
             p_data := JsObject.set (p_data t) key "only here";
             asts := JsObject.set (asts t) key ast |} intl
        = translationModule H d t intl)
  /\ (forall key,
        In key (JsObject.keys (p_data d)) ->
        JsObject.get (p_data t) key = None ->
        JsPrototype.isMember key = false ->
        formatterOf H t key
        = Js.LF ++ "myModule." ++ key ++ " = function() {return '" ++
          Spec.missingKey key ++ "';" ++ Js.LF ++ "};" ++ Js.LF).
Proof.
  intros Hparse.
  assert (Hext : forall other,
            p_locale other = p_locale t ->
            (forall key, In key (JsObject.keys (p_data d)) ->
               JsObject.get (asts other) key = JsObject.get (asts t) key) ->
            translationModule H d other intl = translationModule H d t intl).
  { intros other Hlocale Hsame. unfold translationModule, moduleHeader.
    rewrite Hlocale. do 3 f_equal. apply map_ext_in.
    intros key Hin. now apply formatterOf_ext, Hsame. }
  split; [reflexivity|]. split; [|split; [exact Hext|split]].
  - intros key Hin.
    apply occursIn_trans with (b := formatterOf H t key).
    + apply formatterOf_named.
    + now apply formatterOf_occurs.
  - intros key ast Hout. apply Hext; [reflexivity|]. simpl.
    intros key' Hin. apply JsObjectFacts.get_set_other.
    intros ->. contradiction.
  - intros key _ Hnone Hm. apply formatterOf_missing; [|exact Hm].
    now apply (parseTranslation_asts _ Hparse).
Qed.

Lemma localePart_bare locale :
  Js.mem "_" locale = false ->
  localePart locale 0 = locale /\ localePart locale 1 = "undefined".
Proof.
  intros Hbare. unfold localePart.
  rewrite (StringFacts.split_without _ _ Hbare). split; reflexivity.
Qed.

(** C10: for a locale tag without underscore the per-locale module and
    the unit module set [LANGUAGE_CODE] to the whole tag and
    [COUNTRY_CODE] to the word [undefined]. *)
Theorem C10_bare_language_tag d t intl :
  Js.mem "_" (p_locale t) = false ->
  Spec.occursIn
    ("myModule.LANGUAGE_CODE = '" ++ p_locale t ++ "';" ++ Js.LF ++
     "myModule.COUNTRY_CODE = 'undefined';")
    (translationModule H d t intl)
  /\ Spec.occursIn
       ("export const LANGUAGE_CODE = '" ++ p_locale t ++ "';" ++ Js.LF ++
        "export const COUNTRY_CODE = 'undefined';")
       (translationUnit H t intl)
  /\ Js.split "_" (p_locale t) = [p_locale t]
  /\ nth_error (Js.split "_" (p_locale t)) 1 = None.
Proof.
  intros Hbare. destruct (localePart_bare _ Hbare) as [E0 E1].
  repeat split.
  - unfold translationModule, moduleHeader. rewrite E0, E1.
    rewrite !StringFacts.append_assoc. occurs_search.
  - unfold translationUnit, unitHeader. rewrite E0, E1.
    rewrite !StringFacts.append_assoc. occurs_search.
  - now apply StringFacts.split_without.
  - now rewrite (StringFacts.split_without _ _ Hbare).
Qed.

End Keys.

Lemma demo_loadTranslations :
  loadTranslations Demo.tsHost = Ok [Demo.german; Demo.english]
  /\ parseTranslation Demo.tsHost Demo.mergedGerman = Ok Demo.german
  /\ parseTranslation Demo.tsHost Demo.mergedEnglish = Ok Demo.english.
Proof. repeat split; vm_compute; reflexivity. Qed.

Lemma C10_bare_language_tag_witness :
  Spec.occursIn
    ("myModule.LANGUAGE_CODE = 'en';" ++ Js.LF ++
     "myModule.COUNTRY_CODE = 'undefined';")
    (translationModule Demo.tsHost Demo.german Demo.english "en")
  /\ Spec.occursIn
       ("export const LANGUAGE_CODE = 'en';" ++ Js.LF ++
        "export const COUNTRY_CODE = 'undefined';")
       (translationUnit Demo.tsHost Demo.english "en")
  /\ Js.split "_" "en" = ["en"]
  /\ nth_error (Js.split "_" "en") 1 = None.
Proof.
  apply (C10_bare_language_tag Demo.tsHost Demo.german Demo.english "en").
  reflexivity.
Defined.

(** ** The loader *)

Section Loader.

Variable H : Host.

Lemma camelCaseKeys_from (raw : TranslationMap) keys k :
  (forall r, In r keys -> JsObject.get raw r <> None) ->
  forall acc : TranslationMap,
    JsObject.get
      (fold_left
         (fun acc key =>
            match JsObject.get raw key with
            | Some v => JsObject.set acc (camelCase H key) v
            | None => acc
            end)
         keys acc) k <> None
    <-> (exists r, In r keys /\ k = camelCase H r)
        \/ JsObject.get acc k <> None.
Proof.
  induction keys as [|k0 rest IH]; intros Hdefined acc; simpl.
  - split; [auto | intros [[r [[] _]] | Hacc]; exact Hacc].
  - destruct (JsObject.get raw k0) as [v|] eqn:E.
    + rewrite IH by (intros; apply Hdefined; simpl; auto).
      rewrite JsObjectFacts.get_set.
      destruct (String.eqb (camelCase H k0) k) eqn:Ek.
      * apply String.eqb_eq in Ek. split; intros _.
        -- left. exists k0. auto.
        -- right. discriminate.
      * apply String.eqb_neq in Ek. split.
        -- intros [[r [Hin ->]] | Hacc]; [left; exists r; auto | auto].
        -- intros [[r [[<- | Hin] ->]] | Hacc];
             [congruence | left; exists r; auto | auto].
    + exfalso. apply (Hdefined k0); simpl; auto.
Qed.

(** The keys of the object that [camelCaseKeys] returns are the camel-cased
    keys of its argument. *)
Lemma camelCaseKeys_keys (raw : TranslationMap) k :
  In k (JsObject.keys (camelCaseKeys H raw))
  <-> exists r, In r (JsObject.keys raw) /\ k = camelCase H r.
Proof.
  rewrite JsObjectFacts.in_keys. unfold camelCaseKeys.
  rewrite camelCaseKeys_from.
  - simpl. split; [intros [Hr | Hn]; [exact Hr | contradiction] | auto].
  - intros r. apply JsObjectFacts.in_keys.
Qed.

Lemma readTranslation_throws cwd dir locale feature e :
  readTranslation H cwd dir locale feature = Throw e ->
  code e <> Some "ENOENT".
Proof.
  unfold readTranslation.
  destruct (readFileAsync H _) as [text|err].
  - destruct (properties_parse H text) as [obj|err]; [discriminate|].
    destruct (code err) as [c|] eqn:Ec.
    + destruct (String.eqb c "ENOENT") eqn:E; [discriminate|].
      intros [= <-]. rewrite Ec. apply String.eqb_neq in E. congruence.
    + intros [= <-]. rewrite Ec. discriminate.
  - destruct (code err) as [c|] eqn:Ec.
    + destruct (String.eqb c "ENOENT") eqn:E; [discriminate|].
      intros [= <-]. rewrite Ec. apply String.eqb_neq in E. congruence.
    + intros [= <-]. rewrite Ec. discriminate.
Qed.

Lemma allSettled_rejects {A : Type} (ps : list (Result A)) e :
  In (Throw e) ps -> exists e', In (Throw e') ps /\ allSettled ps = Throw e'.
Proof.
  induction ps as [|[a|e0] r IH]; simpl; intros Hin.
  - destruct Hin.
  - destruct Hin as [Hin | Hin]; [discriminate|].
    destruct (IH Hin) as [e' [Hin' ->]]. exists e'. auto.
  - exists e0. auto.
Qed.

Lemma in_readPromises m modules locale feature :
  In m modules -> In feature (tm_features m) ->
  In locale (localesAndLanguages m) ->
  In (readTranslation H (tm_cwd m) (tm_dir m) locale feature)
     (readPromises H modules).
Proof.
  intros Hm Hf Hl. unfold readPromises.
  apply in_flat_map. exists m. split; [assumption|].
  apply in_flat_map. exists feature. split; [assumption|].
  apply in_map_iff. exists locale. auto.
Qed.

Lemma readPromises_are_reads modules r :
  In r (readPromises H modules) ->
  exists cwd dir locale feature, r = readTranslation H cwd dir locale feature.
Proof.
  unfold readPromises. rewrite in_flat_map.
  intros [m [_ Hin]]. apply in_flat_map in Hin.
  destruct Hin as [feature [_ Hin]]. apply in_map_iff in Hin.
  destruct Hin as [locale [<- _]]. eauto.
Qed.

(** C3: when the file of a translation does not exist ([ENOENT]) the
    loader returns the locale with an empty mapping; any other error of
    the read is the outcome of the loader, and a compile that has this
    read among its reads is rejected before it removes or writes
    anything. *)
Theorem C3_missing_file_is_empty_other_errors_abort
    cwd dir locale feature err :
  readFileAsync H (readPath H cwd dir locale feature) = Throw err ->
  (code err = Some "ENOENT" ->
   readTranslation H cwd dir locale feature
   = Ok {| locale := locale; data := JsObject.empty |})
  /\ (code err <> Some "ENOENT" ->
      readTranslation H cwd dir locale feature = Throw err
      /\ forall deps pkgs m,
           globby H "node_modules/**/package.json" = Ok deps ->
           allSettled (map (readJsonAsync H) deps) = Ok pkgs ->
           In m (translatedModulesOf H deps pkgs) ->
           tm_cwd m = cwd -> tm_dir m = dir ->
           In feature (tm_features m) ->
           In locale (localesAndLanguages m) ->
           exists e,
             code e <> Some "ENOENT"
             /\ compileI18n H [] = (Throw e, [])).
Proof.
  intros Hread.
  assert (Hother : code err <> Some "ENOENT" ->
            readTranslation H cwd dir locale feature = Throw err).
  { intros Hcode. unfold readTranslation. rewrite Hread.
    destruct (code err) as [c|] eqn:Ec; [|reflexivity].
    destruct (String.eqb c "ENOENT") eqn:E; [|reflexivity].
    apply String.eqb_eq in E. congruence. }
  split.
  - intros Hcode. unfold readTranslation. rewrite Hread, Hcode. reflexivity.
  - intros Hcode. split; [now apply Hother|].
    intros deps pkgs m Hglob Hpkgs Hm <- <- Hf Hl.
    pose proof (in_readPromises m _ locale feature Hm Hf Hl) as Hin.
    rewrite (Hother Hcode) in Hin.
    destruct (allSettled_rejects _ _ Hin) as [e [Hine Hall]].
    exists e. split.
    + destruct (readPromises_are_reads _ _ Hine) as [c [d [l [f E]]]].
      symmetry in E. now apply readTranslation_throws in E.
    + unfold compileI18n, await, settled, loadTranslations.
      now rewrite Hglob, Hpkgs, Hall.
Qed.

(** C7: every key of a translation that the loader returns is the camel
    case of a key of the file, and every key of the file is there in camel
    case; the translations that are merged are those of the loader, so two
    files that spell a key differently define the same key of the merged
    mapping, which holds the value of the first of them. *)
Theorem C7_keys_are_camel_cased_on_read cwd dir loc feature t :
  readTranslation H cwd dir loc feature = Ok t ->
  locale t = loc
  /\ (exists raw,
        data t = camelCaseKeys H raw
        /\ (forall text obj,
              readFileAsync H (readPath H cwd dir loc feature) = Ok text ->
              properties_parse H text = Ok obj -> raw = obj)
        /\ forall k,
             In k (JsObject.keys (data t))
             <-> exists r, In r (JsObject.keys raw) /\ k = camelCase H r)
  /\ (forall modules r, In r (readPromises H modules) ->
        exists cwd' dir' loc' feature',
          r = readTranslation H cwd' dir' loc' feature')
  /\ (forall spelling cwd' dir' loc' feature' t' spelling',
        readTranslation H cwd' dir' loc' feature' = Ok t' ->
        In (camelCase H spelling) (JsObject.keys (data t)) ->
        In (camelCase H spelling') (JsObject.keys (data t')) ->
        camelCase H spelling = camelCase H spelling' ->
        JsObject.get (mergeData [t; t']) (camelCase H spelling)
        = JsObject.get (data t) (camelCase H spelling)
        /\ JsObject.get (data t) (camelCase H spelling) <> None
        /\ JsObject.get (data t') (camelCase H spelling) <> None).
Proof.
  intros Hread.
  assert (Hshape : exists raw,
            t = {| locale := loc; data := camelCaseKeys H raw |}
            /\ forall text obj,
                 readFileAsync H (readPath H cwd dir loc feature) = Ok text ->
                 properties_parse H text = Ok obj -> raw = obj).
  { unfold readTranslation in Hread.
    destruct (readFileAsync H _) as [text|err].
    - destruct (properties_parse H text) as [obj|err] eqn:Eparse.
      + injection Hread as <-. exists obj. split; [reflexivity|].
        intros text' obj' [= <-]. congruence.
      + destruct (code err) as [c|]; [|discriminate].
        destruct (String.eqb c "ENOENT"); [|discriminate].
        injection Hread as <-. exists JsObject.empty. split; [reflexivity|].
        intros text' obj' [= <-]. congruence.
    - destruct (code err) as [c|]; [|discriminate].
      destruct (String.eqb c "ENOENT"); [|discriminate].
      injection Hread as <-. exists JsObject.empty. split; [reflexivity|].
      discriminate. }
  destruct Hshape as [raw [-> Hraw]]. simpl.
  split; [reflexivity|]. split; [|split].
  - exists raw. split; [reflexivity|]. split; [exact Hraw|].
    intros k. apply camelCaseKeys_keys.
  - intros modules r. apply readPromises_are_reads.
  - intros spelling cwd' dir' loc' feature' t' spelling' _ Hin Hin' Esp.
    rewrite get_mergeData. simpl.
    apply JsObjectFacts.in_keys in Hin. rewrite <- Esp in Hin'.
    apply JsObjectFacts.in_keys in Hin'.
    destruct (JsObject.get (camelCaseKeys H raw) (camelCase H spelling));
      [|contradiction].
    repeat split; auto.
Qed.

(** The reads of the local project are the last of all reads. *)
Lemma local_reads_come_last deps pkgs :
  readPromises H (translatedModulesOf H deps pkgs)
  = (readPromises H
       (flat_map (fun dp => dependencyModule H (fst dp) (snd dp))
                 (combine deps pkgs))
     ++ readPromises H [localModule H])%list.
Proof.
  unfold translatedModulesOf, readPromises. now rewrite flat_map_app.
Qed.

End Loader.

Lemma C3_missing_file_is_empty_other_errors_abort_witness :
  readTranslation Demo.tsHost "/app" "i18n" "de" ""
  = Ok {| locale := "de"; data := JsObject.empty |}
  /\ readTranslation Demo.lockedHost "/app" "i18n" "de" "" = Throw Demo.EACCES
  /\ exists e,
       code e <> Some "ENOENT"
       /\ compileI18n Demo.lockedHost [] = (Throw e, []).
Proof.
  split.
  - apply (C3_missing_file_is_empty_other_errors_abort Demo.tsHost
             "/app" "i18n" "de" "" (err := Demo.ENOENT)); reflexivity.
  - assert (Hcode : code Demo.EACCES <> Some "ENOENT") by discriminate.
    destruct (C3_missing_file_is_empty_other_errors_abort Demo.lockedHost
                "/app" "i18n" "de" "" (err := Demo.EACCES) eq_refl)
      as [_ Hother].
    destruct (Hother Hcode) as [Hthrow Habort]. split; [exact Hthrow|].
    apply (Habort ["node_modules/dep/package.json"] [Demo.dependencyPackage]
             (localModule Demo.lockedHost)); try reflexivity.
    + vm_compute. right. left. reflexivity.
    + vm_compute. left. reflexivity.
    + vm_compute. right. right. left. reflexivity.
Defined.

Lemma C7_keys_are_camel_cased_on_read_witness :
  locale Demo.fromDependency = "de_DE"
  /\ JsObject.get (mergeData [Demo.fromDependency; Demo.fromProject])
                  (Demo.camel "sign_out")
     = Some "Abmelden"
  /\ Demo.camel "sign_out" = Demo.camel "signOut".
Proof.
  destruct (C7_keys_are_camel_cased_on_read Demo.tsHost
              "node_modules/dep" "i18n" "de_DE" ""
              (t := Demo.fromDependency) eq_refl)
    as [Hlocale [_ [_ Hcollide]]].
  split; [exact Hlocale|]. split; [|reflexivity].
  destruct (Hcollide "sign_out" "/app" "i18n" "de_DE" "" Demo.fromProject
              "signOut" eq_refl) as [Hmerged _].
  - vm_compute. right. left. reflexivity.
  - vm_compute. right. left. reflexivity.
  - reflexivity.
  - exact Hmerged.
Defined.

(** ** Argument types *)

Section UniqBy.

Context {A : Type}.

Variable f : A -> string.

Lemma seen_iff (seen : list string) (k : string) :
  existsb (String.eqb k) seen = true <-> In k seen.
Proof.
  rewrite existsb_exists. split.
  - intros [x [Hin E]]. apply String.eqb_eq in E. now subst.
  - intros Hin. exists k. split; [assumption | apply String.eqb_refl].
Qed.

(** What [uniqBy] keeps is in the array and has a key not seen before. *)
Lemma uniqByFrom_in seen l x :
  In x (uniqByFrom f seen l) -> In x l /\ ~ In (f x) seen.
Proof.
  revert seen. induction l as [|y r IH]; intros seen; simpl; [tauto|].
  destruct (existsb (String.eqb (f y)) seen) eqn:E.
  - intros Hin. destruct (IH _ Hin). auto.
  - intros [<- | Hin].
    + split; auto. rewrite <- seen_iff. congruence.
    + destruct (IH _ Hin) as [Hr Hs]. split; auto.
      intros Hseen. apply Hs. simpl. auto.
Qed.

(** The first element with a key is kept. *)
Lemma uniqByFrom_keeps_first seen before x after :
  (forall y, In y before -> f y <> f x) -> ~ In (f x) seen ->
  In x (uniqByFrom f seen (before ++ x :: after)).
Proof.
  revert seen. induction before as [|y r IH]; intros seen Hbefore Hseen; simpl.
  - destruct (existsb (String.eqb (f x)) seen) eqn:E.
    + apply seen_iff in E. contradiction.
    + simpl. auto.
  - assert (Hr : forall z, In z r -> f z <> f x)
      by (intros; apply Hbefore; simpl; auto).
    destruct (existsb (String.eqb (f y)) seen); [now apply IH|].
    right. apply IH; auto. intros [E | Hin]; [|contradiction].
    apply (Hbefore y); simpl; auto.
Qed.

(** No later element with the same key is kept. *)
Lemma uniqByFrom_only_first seen before x after p :
  (forall y, In y before -> f y <> f x) ->
  In p (uniqByFrom f seen (before ++ x :: after)) -> f p = f x -> p = x.
Proof.
  revert seen. induction before as [|y r IH]; intros seen Hbefore; simpl.
  - destruct (existsb (String.eqb (f x)) seen) eqn:E.
    + intros Hin Ep. apply uniqByFrom_in in Hin. apply seen_iff in E.
      destruct Hin as [_ Hs]. rewrite Ep in Hs. contradiction.
    + intros [<- | Hin] Ep; [reflexivity|].
      apply uniqByFrom_in in Hin. destruct Hin as [_ Hs].
      exfalso. apply Hs. rewrite Ep. simpl. auto.
  - assert (Hr : forall z, In z r -> f z <> f x)
      by (intros; apply Hbefore; simpl; auto).
    destruct (existsb (String.eqb (f y)) seen).
    + now apply IH.
    + intros [<- | Hin] Ep.
      * exfalso. apply (Hbefore y); simpl; auto.
      * now apply (IH (f y :: seen)).
Qed.

Lemma uniqByFrom_map {B : Type} (g : B -> A) seen (l : list B) :
  uniqByFrom f seen (map g l) = map g (uniqByFrom (fun b => f (g b)) seen l).
Proof.
  revert seen. induction l as [|b r IH]; intros seen; simpl; [reflexivity|].
  destruct (existsb (String.eqb (f (g b))) seen); simpl; now rewrite IH.
Qed.

End UniqBy.

Lemma uniqByFrom_ext {A : Type} (f g : A -> string) seen (l : list A) :
  (forall x, f x = g x) -> uniqByFrom f seen l = uniqByFrom g seen l.
Proof.
  intros Hext. revert seen.
  induction l as [|x r IH]; intros seen; simpl; [reflexivity|].
  rewrite Hext, !IH. reflexivity.
Qed.

Section ArgumentTypes.

Lemma keyTypePairOf_spec element :
  keyTypePairOf element
  = {| key := Spec.placeholderName element;
       type := Spec.inferredType element |}.
Proof.
  destruct element as [text | id [[style|style|style|ordinal offset options|options]|]];
    reflexivity.
Qed.

Lemma keyTypePairs_spec ast :
  keyTypePairs ast
  = map keyTypePairOf
      (uniqBy (filter isArgumentElement (elementsOf ast))
              Spec.placeholderName).
Proof.
  unfold keyTypePairs, uniqBy.
  rewrite uniqByFrom_map. f_equal. apply uniqByFrom_ext.
  intros element. now rewrite keyTypePairOf_spec.
Qed.

(** The elements that the [filter] of [getArgumentTypes] keeps are the
    placeholders of the pattern. *)
Lemma placeholders_filter ast :
  Spec.placeholders ast = filter isArgumentElement (elementsOf ast).
Proof.
  destruct ast as [elements]. simpl.
  induction elements as [|[text | id format] rest IH]; simpl;
    [reflexivity | exact IH | now rewrite IH].
Qed.

Lemma filter_all {A : Type} (keep : A -> bool) (l : list A) :
  (forall x, In x l -> keep x = true) -> filter keep l = l.
Proof.
  induction l as [|x r IH]; intros Hall; simpl; [reflexivity|].
  rewrite (Hall x) by (simpl; auto). f_equal.
  apply IH. intros y Hy. apply Hall. simpl. auto.
Qed.

Lemma filter_twice {A : Type} (p q : A -> bool) (l : list A) :
  filter p (filter q l) = filter (fun x => q x && p x) l.
Proof.
  induction l as [|x r IH]; simpl; [reflexivity|].
  destruct (q x); simpl; [destruct (p x)|]; now rewrite IH.
Qed.

(** [uniqBy] keeps what de-duplication by name keeps, minus the names
    that are already seen. *)
Lemma uniqByFrom_distinct seen elements :
  uniqByFrom Spec.placeholderName seen elements
  = filter
      (fun e => negb (existsb (String.eqb (Spec.placeholderName e)) seen))
      (Spec.distinctByName elements).
Proof.
  revert seen. induction elements as [|x r IH]; intros seen; simpl;
    [reflexivity|].
  rewrite filter_twice.
  destruct (existsb (String.eqb (Spec.placeholderName x)) seen) eqn:E; simpl.
  - rewrite IH. apply filter_ext_in. intros y _.
    destruct (String.eqb (Spec.placeholderName y) (Spec.placeholderName x))
      eqn:Ey; simpl; [|reflexivity].
    apply String.eqb_eq in Ey. now rewrite Ey, E.
  - f_equal. rewrite IH. apply filter_ext. intros y. simpl.
    now rewrite negb_orb.
Qed.

Lemma uniqBy_distinct elements :
  uniqBy elements Spec.placeholderName = Spec.distinctByName elements.
Proof.
  unfold uniqBy. rewrite uniqByFrom_distinct. now apply filter_all.
Qed.

(** C4, as the code has it: argument-type inference visits the
    placeholders of the pattern itself (not those inside the branches of
    a plural or select format), de-duplicates them by name, and gives
    each remaining one [number] when its format is a plural format, the
    union of its quoted selectors with [string] in place of [other] when
    its format is a select format, and [string] otherwise; the type list
    it returns is built from these pairs. *)
Theorem C4_top_level_argument_types_are_inferred ast :
  keyTypePairs ast
  = map (fun e => {| key := Spec.placeholderName e;
                     type := Spec.inferredType e |})
        (Spec.distinctByName (Spec.placeholders ast))
  /\ getArgumentTypes ast = Spec.argumentShape ast.
Proof.
  assert (Hpairs : keyTypePairs ast
            = map (fun e => {| key := Spec.placeholderName e;
                               type := Spec.inferredType e |})
                  (Spec.distinctByName (Spec.placeholders ast))).
  { rewrite keyTypePairs_spec, <- placeholders_filter, uniqBy_distinct.
    apply map_ext. intros e. apply keyTypePairOf_spec. }
  split; [exact Hpairs|].
  unfold getArgumentTypes, Spec.argumentShape, Spec.shapeOf.
  rewrite Hpairs, length_map, map_map. simpl.
  now destruct (Spec.distinctByName (Spec.placeholders ast)).
Qed.

Lemma C4_top_level_argument_types_are_inferred_witness :
  getArgumentTypes Demo.repeatedMessage = "{ n: string }"
  /\ getArgumentTypes Demo.selectMessage
     = "{ gender: 'male' | 'female' | string }"
  /\ keyTypePairs Demo.pluralMessage = [{| key := "count"; type := "number" |}].
Proof.
  split; [|split].
  - exact (proj2 (C4_top_level_argument_types_are_inferred
                    Demo.repeatedMessage)).
  - exact (proj2 (C4_top_level_argument_types_are_inferred
                    Demo.selectMessage)).
  - exact (proj1 (C4_top_level_argument_types_are_inferred
                    Demo.pluralMessage)).
Defined.

(** C4 as the specification states it fails: the message
    [{count, plural, one {{name} has one item} other {{name} has many}}]
    has the placeholders [count] and [name], and inference over every
    placeholder element gives both a type, but [getArgumentTypes] only
    visits the elements of the pattern itself and returns no type for
    [name]. *)
Lemma C4_nested_placeholders_are_not_visited :
  map Spec.placeholderName (Spec.allPlaceholders Cases.nestedMessage)
  = ["count"; "name"; "name"]
  /\ Spec.fullShape Cases.nestedMessage = "{ count: number, name: string }"
  /\ getArgumentTypes Cases.nestedMessage = "{ count: number }"
  /\ map key (keyTypePairs Cases.nestedMessage) = ["count"].
Proof. repeat split; reflexivity. Qed.

Lemma argument_type_examples :
  getArgumentTypes Demo.pluralMessage = "{ count: number }"
  /\ getArgumentTypes Demo.selectMessage
     = "{ gender: 'male' | 'female' | string }"
  /\ getArgumentTypes Demo.repeatedMessage = "{ n: string }"
  /\ getArgumentTypes (Demo.text "plain") = "".
Proof. repeat split; reflexivity. Qed.

End ArgumentTypes.

Section FirstOccurrence.

Lemma firstPlaceholder_split name elements first :
  Spec.firstPlaceholder name elements = Some first ->
  exists before after,
    filter isArgumentElement elements = (before ++ first :: after)%list
    /\ Spec.placeholderName first = name
    /\ forall y, In y before -> Spec.placeholderName y <> name.
Proof.
  induction elements as [|[text | id format] rest IH]; simpl.
  - discriminate.
  - exact IH.
  - destruct (String.eqb id name) eqn:E.
    + apply String.eqb_eq in E. intros [= <-].
      exists [], (filter isArgumentElement rest). repeat split; auto.
    + apply String.eqb_neq in E. intros Hfirst.
      destruct (IH Hfirst) as [before [after [Hsplit [Hname Hbefore]]]].
      exists (argumentElement id format :: before), after.
      rewrite Hsplit. repeat split; auto.
      intros y [<- | Hin]; [exact E | now apply Hbefore].
Qed.

(** C9: when a placeholder name occurs several times, the one pair that
    [getArgumentTypes] keeps for the name carries the type of its first
    occurrence in element order, whatever the formats of the later
    occurrences. *)
Theorem C9_first_occurrence_decides_type ast name first :
  Spec.firstPlaceholder name (elementsOf ast) = Some first ->
  In {| key := name; type := Spec.inferredType first |} (keyTypePairs ast)
  /\ forall p,
       In p (keyTypePairs ast) -> key p = name ->
       p = keyTypePairOf first /\ type p = Spec.inferredType first.
Proof.
  intros Hfirst.
  destruct (firstPlaceholder_split _ _ Hfirst)
    as [before [after [Hsplit [Hname Hbefore]]]].
  assert (Hdistinct : forall y, In y before ->
            Spec.placeholderName y <> Spec.placeholderName first)
    by (intros y Hy; rewrite Hname; now apply Hbefore).
  rewrite keyTypePairs_spec. unfold uniqBy.
  rewrite Hsplit. split.
  - rewrite <- Hname, <- keyTypePairOf_spec. apply in_map.
    apply uniqByFrom_keeps_first; auto.
  - intros p Hin Hkey. apply in_map_iff in Hin.
    destruct Hin as [e [<- Hin]].
    rewrite keyTypePairOf_spec in Hkey. simpl in Hkey.
    assert (e = first) as ->.
    { eapply uniqByFrom_only_first; eauto. congruence. }
    split; [reflexivity | now rewrite keyTypePairOf_spec].
Qed.

End FirstOccurrence.

Lemma C9_first_occurrence_decides_type_witness :
  In {| key := "n"; type := "string" |} (keyTypePairs Demo.repeatedMessage)
  /\ getArgumentTypes Demo.repeatedMessage = "{ n: string }".
Proof.
  split; [|reflexivity].
  apply (C9_first_occurrence_decides_type Demo.repeatedMessage "n"
           (first := argumentElement "n" None)).
  reflexivity.
Defined.

(** ** The modules of a run *)

Section Modules.

Variable H : Host.

Lemma allSettled_map_ok {A B : Type} (f : A -> Result B) l l' :
  allSettled (map f l) = Ok l' -> Forall2 (fun x y => f x = Ok y) l l'.
Proof.
  revert l'. induction l as [|x r IH]; intros l'; simpl.
  - intros [= <-]. constructor.
  - destruct (f x) as [y|e] eqn:E; [|discriminate].
    destruct (allSettled (map f r)) as [ys|e]; [|discriminate].
    intros [= <-]. constructor; auto.
Qed.

(** The parsed translations are the merged translations of the configured
    locales, one by one and in configuration order. *)
Lemma loadTranslations_parsed parsed :
  loadTranslations H = Ok parsed ->
  exists translations,
    Forall2 (fun merged p => parseTranslation H merged = Ok p)
      (mergeTranslations
         (groupTranslations H (locales (i18n (project H))) translations))
      parsed.
Proof.
  unfold loadTranslations, parseTranslations.
  destruct (globby H _) as [deps|e]; [|discriminate].
  destruct (allSettled (map _ deps)) as [pkgs|e]; [|discriminate].
  destruct (allSettled (readPromises _ _)) as [ts|e]; [|discriminate].
  intros Hparsed. exists ts. now apply allSettled_map_ok.
Qed.

Lemma parsed_locales merged parsed :
  Forall2 (fun m p => parseTranslation H m = Ok p) merged parsed ->
  map p_locale parsed = map locale merged.
Proof.
  induction 1 as [|m p ms ps Hp _ IH]; simpl; [reflexivity|].
  destruct (parseTranslation_asts H _ Hp) as [-> _]. now rewrite IH.
Qed.

Lemma merged_locales targets translations :
  map locale (mergeTranslations (groupTranslations H targets translations))
  = targets.
Proof.
  unfold mergeTranslations, groupTranslations. rewrite !map_map. simpl.
  apply map_id.
Qed.

Lemma parsed_from_merged merged parsed p :
  Forall2 (fun m q => parseTranslation H m = Ok q) merged parsed ->
  In p parsed -> exists m, parseTranslation H m = Ok p.
Proof.
  induction 1 as [|m q ms qs Hq _ IH]; intros Hin; [destruct Hin|].
  destruct Hin as [<- | Hin]; eauto.
Qed.

(** The per-locale modules that the [Promise.all] of writers issues. *)
Lemma promiseAll_modules d parsed log :
  snd (promiseAll (map (writeTranslation H d) parsed) log)
  = (log ++ Spec.moduleEvents H d parsed)%list.
Proof.
  revert log. induction parsed as [|t r IH]; intros log; simpl.
  - now rewrite app_nil_r.
  - unfold writeTranslation at 1, await, settled.
    destruct (toIntlLocale H (p_locale t)) as [intl|e].
    + match goal with
      | |- context [promiseAll ?ps ?l] =>
          specialize (IH l); destruct (promiseAll ps l) as [xs log2]
      end.
      simpl in IH |- *. rewrite IH, <- app_assoc. reflexivity.
    + specialize (IH log). destruct (promiseAll _ _) as [xs log2].
      simpl in IH |- *. exact IH.
Qed.

End Modules.

(** ** Keys that name a member of [Object.prototype] *)

(** C2, at a failing input: the default locale [de_DE] has a message
    under the key [constructor], the locale [en] has none, so the writer
    of the module of [en] iterates a key without parsed message; yet
    [translation.asts[key]] is the inherited [Object] function, which is
    truthy, and the formatter that is emitted is not the one that returns
    the missing-key text but the one that builds a message format from
    that function. *)
Theorem C2_inherited_key_is_not_reported_missing :
  loadTranslations Cases.inheritedHost
  = Ok [Cases.inheritedGerman; Cases.inheritedEnglish]
  /\ In "constructor" (JsObject.keys (p_data Cases.inheritedGerman))
  /\ JsObject.get (asts Cases.inheritedEnglish) "constructor" = None
  /\ JsPrototype.read (asts Cases.inheritedEnglish) "constructor"
     = JsPrototype.member "constructor"
  /\ formatterOf Cases.inheritedHost Cases.inheritedEnglish "constructor"
     = Js.LF ++ "myModule.constructor = function() {" ++
       Js.LF ++ "  if (!cachedMessages.constructor) {" ++
       Js.LF ++ "    const ast = function Object() { [native code] };" ++
       Js.LF ++ "    cachedMessages.constructor = " ++
         "new IntlMessageFormat(ast, myModule.INTL_LOCALE);" ++
       Js.LF ++ "  }" ++
       Js.LF ++
       Js.LF ++ "  return cachedMessages.constructor.format();" ++
       Js.LF ++ "};" ++
       Js.LF
  /\ formatterOf Cases.inheritedHost Cases.inheritedEnglish "constructor"
     <> Js.LF ++ "myModule.constructor = function() {return '" ++
        Spec.missingKey "constructor" ++ "';" ++ Js.LF ++ "};" ++ Js.LF.
Proof.
  split; [vm_compute; reflexivity|].
  split; [vm_compute; auto|].
  repeat split; try reflexivity.
  vm_compute. discriminate.
Qed.

(** C8, at a failing input: in the run of the same project the module of
    [en] is built against the default translation of [de_DE], whose key
    [constructor] is absent from [en]; the module that is written does
    not hold the missing-key formatter for that key but a formatter whose
    tree is the inherited [Object] function. *)
Theorem C8_inherited_default_key_in_a_run :
  compileI18n Cases.inheritedHost []
  = (Ok tt,
     [Removed "dist-i18n";
      Written "dist-i18n/de_DE.js"
        (translationModule Cases.inheritedHost Cases.inheritedGerman
           Cases.inheritedGerman "de-DE");
      Written "dist-i18n/en.js"
        (translationModule Cases.inheritedHost Cases.inheritedGerman
           Cases.inheritedEnglish "en");
      Written "dist-i18n/unit.js"
        (translationUnit Cases.inheritedHost Cases.inheritedGerman "de-DE");
      Written "dist-i18n/index.d.ts"
        (declaration Cases.inheritedHost
           [Cases.inheritedGerman; Cases.inheritedEnglish]
           Cases.inheritedGerman)])
  /\ JsObject.keys (p_data Cases.inheritedGerman) = ["greeting"; "constructor"]
  /\ JsObject.get (p_data Cases.inheritedEnglish) "constructor" = None
  /\ translationModule Cases.inheritedHost Cases.inheritedGerman
       Cases.inheritedEnglish "en"
     = moduleHeader Cases.inheritedEnglish "en" ++
       formatterOf Cases.inheritedHost Cases.inheritedEnglish "greeting" ++
       (Js.LF ++ "myModule.constructor = function() {" ++
        Js.LF ++ "  if (!cachedMessages.constructor) {" ++
        Js.LF ++ "    const ast = function Object() { [native code] };" ++
        Js.LF ++ "    cachedMessages.constructor = " ++
          "new IntlMessageFormat(ast, myModule.INTL_LOCALE);" ++
        Js.LF ++ "  }" ++
        Js.LF ++
        Js.LF ++ "  return cachedMessages.constructor.format();" ++
        Js.LF ++ "};" ++
        Js.LF) ++
       moduleFooter.
Proof.
  repeat split; vm_compute; reflexivity.
Qed.

(** * Further properties of the code *)

(** ** Lines and indentation *)

Module LineFacts.

Lemma split_not_nil sep s : Js.split sep s <> [].
Proof.
  destruct s as [|c r]; simpl; [discriminate|].
  destruct (Ascii.eqb c sep); [discriminate|].
  destruct (Js.split sep r); discriminate.
Qed.

Lemma concat_cons_char sep c h t :
  String.concat sep (String c h :: t) = String c (String.concat sep (h :: t)).
Proof. destruct t; reflexivity. Qed.

(** Joining what [split] returns with the separator gives the text
    back. *)
Lemma join_split sep s :
  Js.join (String sep EmptyString) (Js.split sep s) = s.
Proof.
  unfold Js.join. induction s as [|c r IH]; simpl; [reflexivity|].
  destruct (Ascii.eqb c sep) eqn:E.
  - apply Ascii.eqb_eq in E. subst c.
    destruct (Js.split sep r) as [|h t] eqn:Er;
      [now apply split_not_nil in Er|].
    simpl in IH |- *. now rewrite IH.
  - destruct (Js.split sep r) as [|h t] eqn:Er;
      [now apply split_not_nil in Er|].
    now rewrite concat_cons_char, IH.
Qed.

Lemma split_app_sep sep a b :
  Js.mem sep a = false ->
  Js.split sep (a ++ String sep b) = a :: Js.split sep b.
Proof.
  induction a as [|c a IH]; simpl.
  - intros _. now rewrite Ascii.eqb_refl.
  - intros Hm. apply orb_false_iff in Hm. destruct Hm as [Hc Ha].
    now rewrite Hc, IH.
Qed.

Lemma split_prefix sep a s h t :
  Js.mem sep a = false -> Js.split sep s = h :: t ->
  Js.split sep (a ++ s) = (a ++ h) :: t.
Proof.
  intros Hm Hs. induction a as [|c a IH]; simpl; [assumption|].
  simpl in Hm. apply orb_false_iff in Hm. destruct Hm as [Hc Ha].
  now rewrite Hc, IH.
Qed.

Lemma split_parts_without sep s :
  Forall (fun part => Js.mem sep part = false) (Js.split sep s).
Proof.
  induction s as [|c r IH]; simpl.
  - constructor; [reflexivity | constructor].
  - destruct (Ascii.eqb c sep) eqn:E.
    + constructor; [reflexivity | assumption].
    + destruct (Js.split sep r) as [|h t].
      * constructor; [simpl; now rewrite E | constructor].
      * inversion IH; subst. constructor; [simpl; now rewrite E | assumption].
Qed.

(** Splitting a text that was joined with a separator followed by a
    prefix: the first part as it was, the others with the prefix. *)
Lemma split_join_prefixed sep prefix first rest :
  Js.mem sep prefix = false ->
  Forall (fun part => Js.mem sep part = false) (first :: rest) ->
  Js.split sep (Js.join (String sep prefix) (first :: rest))
  = first :: map (append prefix) rest.
Proof.
  intros Hp. unfold Js.join. revert first.
  induction rest as [|l1 ls IH]; intros first Hparts.
  - inversion Hparts; subst. simpl. now apply StringFacts.split_without.
  - inversion Hparts as [|x xs Hfirst Hrest]; subst.
    change (String.concat (String sep prefix) (first :: l1 :: ls))
      with (first ++ String sep (prefix ++
              String.concat (String sep prefix) (l1 :: ls))).
    rewrite split_app_sep by assumption. f_equal.
    now apply split_prefix, IH.
Qed.

End LineFacts.

(** X1: [indent] leaves the first line of a text as it is and puts the
    indentation in front of every further line, empty ones included; it
    neither adds nor removes a line. *)
Theorem X1_indent_prefixes_later_lines indentation text first rest :
  Js.mem (ascii_of_nat 10) indentation = false ->
  Js.split (ascii_of_nat 10) text = first :: rest ->
  Js.split (ascii_of_nat 10) (indent indentation text)
  = first :: map (append indentation) rest.
Proof.
  intros Hind Hlines. unfold indent. rewrite Hlines.
  change (Js.LF ++ indentation) with (String (ascii_of_nat 10) indentation).
  apply LineFacts.split_join_prefixed; [assumption|].
  rewrite <- Hlines. apply LineFacts.split_parts_without.
Qed.

Lemma X1_indent_prefixes_later_lines_witness :
  Js.split (ascii_of_nat 10)
    (indent "    " ("{" ++ Js.LF ++ "  text: 'hi'" ++ Js.LF ++ Js.LF ++ "}"))
  = ["{"; "      text: 'hi'"; "    "; "    }"].
Proof.
  apply (X1_indent_prefixes_later_lines "    "
           ("{" ++ Js.LF ++ "  text: 'hi'" ++ Js.LF ++ Js.LF ++ "}")
           (first := "{") (rest := ["  text: 'hi'"; ""; "}"]));
    reflexivity.
Defined.

(** X2: [indent] returns a text without line break unchanged, whatever
    the indentation, and with the empty indentation it returns every text
    unchanged. *)
Theorem X2_indent_identity text :
  indent "" text = text
  /\ forall indentation,
       Js.mem (ascii_of_nat 10) text = false ->
       indent indentation text = text.
Proof.
  split.
  - unfold indent. apply LineFacts.join_split.
  - intros indentation Hone. unfold indent.
    now rewrite (StringFacts.split_without _ _ Hone).
Qed.

(** ** Arguments of a message *)

Section Arguments.

Lemma uniqByFrom_nil_seen {A : Type} (f : A -> string) x r :
  uniqByFrom f [] (x :: r) = x :: uniqByFrom f [f x] r.
Proof. reflexivity. Qed.

Lemma keyTypePairs_nil ast :
  keyTypePairs ast = [] <-> filter isArgumentElement (elementsOf ast) = [].
Proof.
  unfold keyTypePairs, uniqBy.
  destruct (filter isArgumentElement (elementsOf ast)) as [|e r]; simpl.
  - tauto.
  - split; discriminate.
Qed.

(** X3: the two tests on the arguments of a message agree:
    [getArgumentTypes] returns the empty string exactly for the messages
    for which [hasArguments] is false, and a braced shape otherwise, so
    the typed argument of [getArgument] is either empty or [data]
    followed by a braced shape. *)
Theorem X3_argument_tests_agree ast :
  (hasArguments (Some ast) = false ->
   getArgumentTypes ast = "" /\ getArgument (Some ast) true = "")
  /\ (hasArguments (Some ast) = true ->
      exists shape,
        getArgumentTypes ast = "{ " ++ shape ++ " }"
        /\ getArgument (Some ast) true = "data{ " ++ shape ++ " }"
        /\ getArgument (Some ast) false = "data").
Proof.
  unfold getArgument, getArgumentTypes. simpl hasArguments.
  destruct (filter isArgumentElement (elementsOf ast)) as [|e r] eqn:E.
  - split; [|discriminate]. intros _.
    rewrite (proj2 (keyTypePairs_nil ast) E). split; reflexivity.
  - split; [discriminate|]. intros _.
    destruct (keyTypePairs ast) as [|p ps] eqn:Ep.
    + apply keyTypePairs_nil in Ep. congruence.
    + eexists. repeat split; reflexivity.
Qed.

Lemma uniqByFrom_NoDup {A : Type} (f : A -> string) seen l :
  NoDup (map f (uniqByFrom f seen l)).
Proof.
  revert seen. induction l as [|x r IH]; intros seen; simpl; [constructor|].
  destruct (existsb (String.eqb (f x)) seen); [apply IH|].
  simpl. constructor; [|apply IH].
  intros Hin. apply in_map_iff in Hin. destruct Hin as [y [Ey Hy]].
  apply uniqByFrom_in in Hy. destruct Hy as [_ Hs].
  apply Hs. rewrite Ey. simpl. auto.
Qed.

Lemma uniqByFrom_covers {A : Type} (f : A -> string) seen l x :
  In x l -> In (f x) seen \/ In (f x) (map f (uniqByFrom f seen l)).
Proof.
  revert seen. induction l as [|y r IH]; intros seen; [intros []|].
  intros [-> | Hin]; simpl.
  - destruct (existsb (String.eqb (f x)) seen) eqn:E.
    + left. now apply seen_iff.
    + right. simpl. auto.
  - destruct (existsb (String.eqb (f y)) seen) eqn:E.
    + now apply IH.
    + destruct (IH (f y :: seen) Hin) as [[<- | Hs] | Hk]; simpl; auto.
Qed.

(** X4: the pairs that [getArgumentTypes] builds name the placeholders
    among the elements of the pattern itself, each name once: no name is
    listed twice, and a name is listed exactly when an argument element
    of [ast.elements] has it (a placeholder that only occurs inside the
    branches of a plural or select format is not listed). *)
Theorem X4_one_pair_per_placeholder_name ast :
  NoDup (map key (keyTypePairs ast))
  /\ forall name,
       In name (map key (keyTypePairs ast))
       <-> exists format,
             In (argumentElement name format) (elementsOf ast).
Proof.
  split.
  - unfold keyTypePairs, uniqBy. apply uniqByFrom_NoDup.
  - intros name. rewrite keyTypePairs_spec, map_map. split.
    + intros Hin. apply in_map_iff in Hin. destruct Hin as [e [Ee He]].
      apply uniqByFrom_in in He. destruct He as [He _].
      apply filter_In in He.
      destruct He as [He Harg]. rewrite keyTypePairOf_spec in Ee. simpl in Ee.
      destruct e as [text | id format]; [discriminate|].
      simpl in Ee. subst id. eauto.
    + intros [format Hin].
      assert (Hp : In (argumentElement name format)
                      (filter isArgumentElement (elementsOf ast)))
        by (apply filter_In; auto).
      destruct (uniqByFrom_covers Spec.placeholderName [] _ _ Hp)
        as [[] | Hk].
      simpl in Hk. apply in_map_iff in Hk. destruct Hk as [e [Ee He]].
      apply in_map_iff. exists e. split; [|exact He].
      now rewrite keyTypePairOf_spec.
Qed.

End Arguments.

(** ** Reading and parsing *)

Section Reading.

Variable H : Host.

Lemma camelCaseKeys_untouched (raw : TranslationMap) keys k :
  (forall y, In y keys -> camelCase H y <> k) ->
  forall acc : TranslationMap,
    JsObject.get
      (fold_left
         (fun acc key =>
            match JsObject.get raw key with
            | Some v => JsObject.set acc (camelCase H key) v
            | None => acc
            end)
         keys acc) k
    = JsObject.get acc k.
Proof.
  induction keys as [|y r IH]; intros Hne acc; simpl; [reflexivity|].
  rewrite IH by (intros; apply Hne; simpl; auto).
  destruct (JsObject.get raw y); [|reflexivity].
  apply JsObjectFacts.get_set_other. apply Hne. simpl. auto.
Qed.

(** X5: [camelCaseKeys] keeps the values: under the camel case of a key
    the result holds the value of that key, unless a key later in the
    order of [Object.keys] has the same camel case, in which case the
    later one is kept. *)
Theorem X5_camelCaseKeys_keeps_last_spelling
    (raw : TranslationMap) before r after :
  JsObject.keys raw = (before ++ r :: after)%list ->
  (forall y, In y after -> camelCase H y <> camelCase H r) ->
  JsObject.get (camelCaseKeys H raw) (camelCase H r) = JsObject.get raw r
  /\ JsObject.get raw r <> None.
Proof.
  intros Hkeys Hlast.
  assert (Hdef : JsObject.get raw r <> None).
  { apply JsObjectFacts.in_keys. rewrite Hkeys. apply in_or_app.
    right. left. reflexivity. }
  split; [|exact Hdef].
  unfold camelCaseKeys. rewrite Hkeys, fold_left_app. simpl.
  rewrite camelCaseKeys_untouched by exact Hlast.
  destruct (JsObject.get raw r) as [v|]; [|contradiction].
  apply JsObjectFacts.get_set_same.
Qed.

(** X6: the [catch] of the loader follows the parser, so an error that
    the properties parser throws is handled like an error of the read: with
    the code [ENOENT] it gives the empty translation, with any other code
    or none it is the outcome of the loader. *)
Theorem X6_parser_errors_pass_the_same_catch cwd dir loc feature text err :
  readFileAsync H (readPath H cwd dir loc feature) = Ok text ->
  properties_parse H text = Throw err ->
  (code err = Some "ENOENT" ->
   readTranslation H cwd dir loc feature
   = Ok {| locale := loc; data := JsObject.empty |})
  /\ (code err <> Some "ENOENT" ->
      readTranslation H cwd dir loc feature = Throw err).
Proof.
  intros Hread Hparse. unfold readTranslation. rewrite Hread, Hparse. split.
  - intros ->. reflexivity.
  - intros Hcode. destruct (code err) as [c|]; [|reflexivity].
    destruct (String.eqb c "ENOENT") eqn:E; [|reflexivity].
    apply String.eqb_eq in E. congruence.
Qed.

(** X7: when the loader rejects, the error is the one of the read or the
    one of the properties parser, unchanged, and its code is not
    [ENOENT]. *)
Theorem X7_loader_rejections cwd dir loc feature e :
  readTranslation H cwd dir loc feature = Throw e ->
  code e <> Some "ENOENT"
  /\ (readFileAsync H (readPath H cwd dir loc feature) = Throw e
      \/ exists text,
           readFileAsync H (readPath H cwd dir loc feature) = Ok text
           /\ properties_parse H text = Throw e).
Proof.
  intros Hthrow. split; [now apply (readTranslation_throws _ _ _ _ _ Hthrow)|].
  unfold readTranslation in Hthrow.
  destruct (readFileAsync H _) as [text|err].
  - right. exists text. split; [reflexivity|].
    destruct (properties_parse H text) as [obj|err]; [discriminate|].
    destruct (code err) as [c|].
    + destruct (String.eqb c "ENOENT"); [discriminate | congruence].
    + congruence.
  - left. destruct (code err) as [c|].
    + destruct (String.eqb c "ENOENT"); [discriminate | congruence].
    + congruence.
Qed.

Lemma parseKeys_other data keys start parsed k :
  parseKeys H data keys start = Ok parsed ->
  ~ In k keys -> JsObject.get parsed k = JsObject.get start k.
Proof.
  revert start. induction keys as [|k0 r IH]; intros start; simpl.
  - now intros [= <-].
  - destruct (JsObject.get data k0) as [text|]; [|discriminate].
    destruct (parser_parse H text) as [ast|e]; [|discriminate].
    intros Hparse Hout. rewrite (IH _ Hparse) by tauto.
    apply JsObjectFacts.get_set_other. tauto.
Qed.

Lemma parseKeys_stores data keys start parsed k :
  parseKeys H data keys start = Ok parsed -> In k keys ->
  exists text ast,
    JsObject.get data k = Some text
    /\ parser_parse H text = Ok ast
    /\ JsObject.get parsed k = Some ast.
Proof.
  revert start. induction keys as [|k0 r IH]; intros start; simpl.
  - intros _ [].
  - destruct (JsObject.get data k0) as [text|] eqn:Ed; [|discriminate].
    destruct (parser_parse H text) as [ast|e] eqn:Ep; [|discriminate].
    intros Hparse Hin.
    destruct (in_dec string_dec k r) as [Hr | Hr]; [now apply (IH _ Hparse)|].
    destruct Hin as [-> | Hin]; [|contradiction].
    exists text, ast. repeat split; auto.
    rewrite (@parseKeys_other data r _ parsed k Hparse Hr).
    apply JsObjectFacts.get_set_same.
Qed.

Lemma parseKeys_total data keys :
  (forall k, In k keys ->
     exists text ast,
       JsObject.get data k = Some text /\ parser_parse H text = Ok ast) ->
  forall start, exists parsed, parseKeys H data keys start = Ok parsed.
Proof.
  induction keys as [|k0 r IH]; intros Hall start; simpl; [eauto|].
  destruct (Hall k0) as [text [ast [-> ->]]]; [simpl; auto|].
  apply IH. intros k Hk. apply Hall. simpl. auto.
Qed.

Lemma parseKeys_fails data keys k text e :
  In k keys -> JsObject.get data k = Some text ->
  parser_parse H text = Throw e ->
  forall start, exists e', parseKeys H data keys start = Throw e'.
Proof.
  induction keys as [|k0 r IH]; intros Hin Hd Hp start; simpl; [destruct Hin|].
  destruct (JsObject.get data k0) as [text0|] eqn:Ed0; [|eauto].
  destruct (parser_parse H text0) as [ast0|e0] eqn:Ep0; [|eauto].
  destruct Hin as [-> | Hin]; [congruence|]. now apply IH.
Qed.

(** X8: in a parsed translation the tree stored under a key is what
    [parser.parse] returns for the message of that key; the data and the
    locale are those of the merged translation. *)
Theorem X8_asts_are_the_parsed_messages merged parsed k text :
  parseTranslation H merged = Ok parsed ->
  JsObject.get (data merged) k = Some text ->
  p_data parsed = data merged
  /\ p_locale parsed = locale merged
  /\ exists ast,
       parser_parse H text = Ok ast
       /\ JsObject.get (asts parsed) k = Some ast.
Proof.
  unfold parseTranslation.
  destruct (parseKeys H _ _ _) as [a|e] eqn:E; [|discriminate].
  intros [= <-] Hd. simpl. repeat split.
  assert (Hin : In k (JsObject.keys (data merged)))
    by (apply JsObjectFacts.in_keys; congruence).
  destruct (@parseKeys_stores _ _ _ a k E Hin) as [text' [ast [Hd' [Hp Ha]]]].
  exists ast. split; [congruence | exact Ha].
Qed.

(** X9: a merged translation is parsed successfully exactly when
    [parser.parse] accepts every one of its messages; one message that is
    rejected makes the whole translation fail. *)
Theorem X9_parse_succeeds_iff_every_message_parses merged :
  (exists parsed, parseTranslation H merged = Ok parsed)
  <-> (forall k text,
         JsObject.get (data merged) k = Some text ->
         exists ast, parser_parse H text = Ok ast).
Proof.
  split.
  - intros [parsed Hparsed] k text Hd. unfold parseTranslation in Hparsed.
    destruct (parseKeys H _ _ _) as [a|e] eqn:E; [|discriminate].
    assert (Hin : In k (JsObject.keys (data merged)))
      by (apply JsObjectFacts.in_keys; congruence).
    destruct (@parseKeys_stores _ _ _ a k E Hin) as [text' [ast [Hd' [Hp _]]]].
    exists ast. congruence.
  - intros Hall. unfold parseTranslation.
    destruct (parseKeys_total (data merged) (JsObject.keys (data merged)))
      with (start := @JsObject.empty Ast) as [a ->]; [|eauto].
    intros k Hin. apply JsObjectFacts.in_keys in Hin.
    destruct (JsObject.get (data merged) k) as [text|] eqn:Ed; [|contradiction].
    destruct (Hall k text Ed) as [ast Hp]. eauto.
Qed.

End Reading.

Lemma X5_camelCaseKeys_keeps_last_spelling_witness :
  JsObject.get (camelCaseKeys Demo.tsHost Cases.twoSpellings) "signOut"
  = Some "second"
  /\ JsObject.get (camelCaseKeys Demo.tsHost Cases.twoSpellings) "other"
     = Some "x".
Proof.
  split.
  - apply (X5_camelCaseKeys_keeps_last_spelling Demo.tsHost Cases.twoSpellings
             ["sign_out"; "other"] "signOut" []); [reflexivity|].
    intros y [].
  - apply (X5_camelCaseKeys_keeps_last_spelling Demo.tsHost Cases.twoSpellings
             ["sign_out"] "other" ["signOut"]); [reflexivity|].
    intros y [<- | []]. discriminate.
Defined.

Lemma X6_parser_errors_pass_the_same_catch_witness :
  readTranslation Cases.failingParserHost "/app" "i18n" "en" ""
  = Ok {| locale := "en"; data := JsObject.empty |}.
Proof.
  destruct (X6_parser_errors_pass_the_same_catch Cases.failingParserHost
              "/app" "i18n" "en" "" (text := "onlyEnglish=only")
              (err := Demo.ENOENT) eq_refl eq_refl) as [Hempty _].
  apply Hempty. reflexivity.
Defined.

Lemma X7_loader_rejections_witness :
  code Demo.EACCES <> Some "ENOENT"
  /\ (readFileAsync Demo.lockedHost
        (readPath Demo.lockedHost "/app" "i18n" "de" "") = Throw Demo.EACCES
      \/ exists text,
           readFileAsync Demo.lockedHost
             (readPath Demo.lockedHost "/app" "i18n" "de" "") = Ok text
           /\ properties_parse Demo.lockedHost text = Throw Demo.EACCES).
Proof.
  apply (X7_loader_rejections Demo.lockedHost "/app" "i18n" "de" "").
  reflexivity.
Defined.

Lemma X8_asts_are_the_parsed_messages_witness :
  p_data Demo.german = data Demo.mergedGerman
  /\ p_locale Demo.german = locale Demo.mergedGerman
  /\ exists ast,
       parser_parse Demo.tsHost "{name}" = Ok ast
       /\ JsObject.get (asts Demo.german) "who" = Some ast.
Proof.
  apply (X8_asts_are_the_parsed_messages Demo.tsHost Demo.mergedGerman
           (parsed := Demo.german) "who"); reflexivity.
Defined.

(** ** Runs *)

Section Runs.

Variable H : Host.

(** X10: a message that [parser.parse] rejects is a build error: when
    all files are read, one rejected message in a merged translation of a
    target locale makes the compile fail before it removes or writes
    anything. *)
Theorem X10_malformed_message_aborts deps pkgs reads merged k text e :
  globby H "node_modules/**/package.json" = Ok deps ->
  allSettled (map (readJsonAsync H) deps) = Ok pkgs ->
  allSettled (readPromises H (translatedModulesOf H deps pkgs)) = Ok reads ->
  In merged
     (mergeTranslations
        (groupTranslations H (locales (i18n (project H))) reads)) ->
  JsObject.get (data merged) k = Some text ->
  parser_parse H text = Throw e ->
  exists e', compileI18n H [] = (Throw e', []).
Proof.
  intros Hglob Hpkgs Hreads Hin Hd Hp.
  assert (Hk : In k (JsObject.keys (data merged)))
    by (apply JsObjectFacts.in_keys; congruence).
  destruct (parseKeys_fails H (data merged) _ k Hk Hd Hp JsObject.empty)
    as [e1 He1].
  assert (Hthrow : In (Throw e1) (map (parseTranslation H)
            (mergeTranslations
               (groupTranslations H (locales (i18n (project H))) reads)))).
  { apply in_map_iff. exists merged. split; [|exact Hin].
    unfold parseTranslation. now rewrite He1. }
  destruct (allSettled_rejects _ _ Hthrow) as [e' [_ Hall]].
  exists e'. unfold compileI18n, await, settled, loadTranslations,
    parseTranslations.
  now rewrite Hglob, Hpkgs, Hreads, Hall.
Qed.

Lemma firstDefining_defined k translations :
  Spec.firstDefining k translations <> None
  <-> exists t, In t translations /\ JsObject.get (data t) k <> None.
Proof.
  induction translations as [|t r IH]; simpl.
  - split; [congruence | intros [t [[] _]]].
  - destruct (JsObject.get (data t) k) eqn:E.
    + split; [|discriminate]. intros _. exists t. split; [auto | congruence].
    + rewrite IH. split.
      * intros [t' [Hin Hd]]. eauto.
      * intros [t' [[<- | Hin] Hd]]; [congruence | eauto].
Qed.

(** X11: merging neither loses nor invents a key: the keys of the merged
    mapping are the keys of the merged sources. *)
Theorem X11_merged_keys_are_the_union translations k :
  In k (JsObject.keys (mergeData translations))
  <-> exists t, In t translations /\ In k (JsObject.keys (data t)).
Proof.
  rewrite JsObjectFacts.in_keys, get_mergeData, firstDefining_defined.
  split; intros [t [Hin Hd]]; exists t; split; auto;
    now apply JsObjectFacts.in_keys.
Qed.

(** X12: a successful load yields one parsed translation for every
    configured locale, in the order of the configuration; a locale that
    is configured twice is compiled twice. *)
Theorem X12_one_translation_per_locale parsed :
  loadTranslations H = Ok parsed ->
  map p_locale parsed = locales (i18n (project H)).
Proof.
  intros Hload. destruct (loadTranslations_parsed H Hload) as [ts Hparsed].
  rewrite (parsed_locales H Hparsed). apply merged_locales.
Qed.

Lemma promiseAll_modules_ok d parsed log results :
  fst (promiseAll (map (writeTranslation H d) parsed) log) = Ok results ->
  Forall (fun t => exists intl, toIntlLocale H (p_locale t) = Ok intl) parsed.
Proof.
  revert log results. induction parsed as [|t r IH]; intros log results;
    [constructor|].
  simpl. unfold writeTranslation at 1, await, settled.
  destruct (toIntlLocale H (p_locale t)) as [intl|e] eqn:Et.
  - destruct (promiseAll _ _) as [[xs|e'] log2] eqn:Er; simpl.
    + intros _. constructor; [eauto|].
      eapply (IH _ xs). rewrite Er. reflexivity.
    + destruct (outputFileAsync H _ _); discriminate.
  - destruct (promiseAll _ _) as [xs log2]. discriminate.
Qed.

Lemma moduleEvents_length d parsed :
  Forall (fun t => exists intl, toIntlLocale H (p_locale t) = Ok intl) parsed ->
  length (Spec.moduleEvents H d parsed) = length parsed.
Proof.
  induction 1 as [|t r [intl Hintl] _ IH]; [reflexivity|].
  unfold Spec.moduleEvents in *. simpl. rewrite Hintl. simpl. now rewrite IH.
Qed.

(** X13: what a successful run leaves in the log, in order: the removal
    of the output directory, one module for every configured locale, the
    unit module of the default translation and, unless the entry
    extension is [js], the declaration; nothing else. *)
Theorem X13_log_of_a_successful_run :
  fst (compileI18n H []) = Ok tt ->
  exists d rest intl,
    loadTranslations H = Ok (d :: rest)
    /\ toIntlLocale H (p_locale d) = Ok intl
    /\ snd (compileI18n H [])
       = (Removed (distDir (i18n (project H)))
          :: Spec.moduleEvents H d (d :: rest)
          ++ Written (path_join H [distDir (i18n (project H)); "unit.js"])
                     (translationUnit H d intl)
          :: (if String.eqb (entryExtension (project H)) "js" then []
              else [Written (declarationPath H)
                            (declaration H (d :: rest) d)]))%list
    /\ length (Spec.moduleEvents H d (d :: rest))
       = length (locales (i18n (project H))).
Proof.
  intros Hok.
  destruct (compileI18n_cases H [])
    as [[x [_ E]] | [[ps [x [_ [_ E]]]] | [ps [Hload [_ E]]]]];
    rewrite E in Hok |- *; try discriminate.
  change ([] ++ [Removed (distDir (i18n (project H)))])%list
    with [Removed (distDir (i18n (project H)))] in *.
  destruct ps as [|d rest]; [discriminate Hok|].
  exists d, rest.
  pose proof (promiseAll_modules H d (d :: rest)
                [Removed (distDir (i18n (project H)))]) as Hlog.
  pose proof (promiseAll_modules_ok d (d :: rest)
                [Removed (distDir (i18n (project H)))]) as Hall.
  remember (Spec.moduleEvents H d (d :: rest)) as modules eqn:Emodules.
  unfold afterRemoval, await in *.
  destruct (promiseAll (map (writeTranslation H d) (d :: rest)) _)
    as [[l|e] log1]; [|discriminate].
  cbn [snd] in Hlog. subst log1. specialize (Hall l eq_refl).
  cbn [hd_error] in *. unfold writeTranslationUnit, await, settled in *.
  destruct (toIntlLocale H (p_locale d)) as [intl|e] eqn:Eintl;
    [|discriminate].
  exists intl. split; [exact Hload|]. split; [reflexivity|]. split.
  - destruct (outputFileAsync H _ (translationUnit H d intl)) as [[]|e];
      [|discriminate].
    destruct (String.eqb (entryExtension (project H)) "js"); cbn [negb].
    + reflexivity.
    + unfold writeDeclaration. cbn [snd app]. now rewrite <- app_assoc.
  - rewrite Emodules, (moduleEvents_length d Hall).
    destruct (loadTranslations_parsed H Hload) as [ts Hparsed].
    rewrite <- (merged_locales H (locales (i18n (project H))) ts).
    rewrite <- (parsed_locales H Hparsed). now rewrite length_map.
Qed.

End Runs.

Lemma X10_malformed_message_aborts_witness :
  exists e', compileI18n Cases.malformedHost [] = (Throw e', []).
Proof.
  apply (@X10_malformed_message_aborts Cases.malformedHost
           ["node_modules/dep/package.json"] [Demo.dependencyPackage]
           Cases.malformedReads Cases.malformedMerged "who"
           "{name" Cases.SyntaxError).
  - reflexivity.
  - reflexivity.
  - vm_compute. reflexivity.
  - vm_compute. left. reflexivity.
  - reflexivity.
  - reflexivity.
Defined.

Lemma X12_one_translation_per_locale_witness :
  map p_locale [Demo.german; Demo.english]
  = locales (i18n (project Demo.tsHost)).
Proof.
  apply (X12_one_translation_per_locale Demo.tsHost).
  vm_compute. reflexivity.
Defined.

Lemma X13_log_of_a_successful_run_witness :
  exists d rest intl,
    loadTranslations Demo.jsHost = Ok (d :: rest)
    /\ toIntlLocale Demo.jsHost (p_locale d) = Ok intl
    /\ snd (compileI18n Demo.jsHost [])
       = (Removed (distDir (i18n (project Demo.jsHost)))
          :: Spec.moduleEvents Demo.jsHost d (d :: rest)
          ++ Written (path_join Demo.jsHost
                        [distDir (i18n (project Demo.jsHost)); "unit.js"])
                     (translationUnit Demo.jsHost d intl)
          :: (if String.eqb (entryExtension (project Demo.jsHost)) "js"
              then []
              else [Written (declarationPath Demo.jsHost)
                            (declaration Demo.jsHost (d :: rest) d)]))%list
    /\ length (Spec.moduleEvents Demo.jsHost d (d :: rest))
       = length (locales (i18n (project Demo.jsHost))).
Proof.
  apply (X13_log_of_a_successful_run Demo.jsHost). vm_compute. reflexivity.
Defined.

Section Edges.

Variable H : Host.

(** X14: with an empty list of target locales the compile still removes
    the output directory and then fails with a type error on the missing
    default translation; it writes no file. *)
Theorem X14_no_locales_removes_then_fails parsed :
  locales (i18n (project H)) = [] ->
  loadTranslations H = Ok parsed ->
  removeAsync H (distDir (i18n (project H))) = Ok tt ->
  compileI18n H []
  = (Throw TypeError, [Removed (distDir (i18n (project H)))]).
Proof.
  intros Hnone Hload Hremove.
  assert (Hparsed : parsed = []).
  { destruct (loadTranslations_parsed H Hload) as [ts Hparsed].
    pose proof (parsed_locales H Hparsed) as Hlocales.
    rewrite merged_locales, Hnone in Hlocales.
    now destruct parsed. }
  subst parsed. unfold compileI18n, await, settled, remove.
  rewrite Hload, Hremove. reflexivity.
Qed.

(** X15: the module of the default locale and the unit module never
    fall back to the missing-key text: every key they iterate has a
    message of its own, and the formatter they emit for it embeds the
    tree that [parser.parse] returned for that message. *)
Theorem X15_own_keys_have_formatters merged parsed key :
  parseTranslation H merged = Ok parsed ->
  In key (JsObject.keys (p_data parsed)) ->
  exists text ast,
    JsObject.get (p_data parsed) key = Some text
    /\ parser_parse H text = Ok ast
    /\ Spec.occursIn
         ("    const ast = " ++ indent "    " (stringifyObject H ast) ++ ";")
         (formatterOf H parsed key)
    /\ Spec.occursIn
         ("    const ast = " ++ indent "    " (stringifyObject H ast) ++ ";")
         (unitFormatterOf H parsed key).
Proof.
  unfold parseTranslation.
  destruct (parseKeys H _ _ _) as [a|e] eqn:E; [|discriminate].
  intros [= <-] Hin. simpl in Hin.
  destruct (parseKeys_stores H _ _ _ key E Hin) as [text [ast [Hd [Hp Ha]]]].
  exists text, ast. simpl p_data. repeat split; auto.
  - unfold formatterOf. simpl asts. rewrite (read_own _ _ Ha).
    cbn [stringified]. rewrite !StringFacts.append_assoc. occurs_search.
  - unfold unitFormatterOf. simpl asts. rewrite (read_own _ _ Ha).
    cbn [stringified]. rewrite !StringFacts.append_assoc. occurs_search.
Qed.

Lemma split_at_underscore language rest :
  Js.mem "_" language = false ->
  Js.split "_" (language ++ "_" ++ rest) = language :: Js.split "_" rest.
Proof. intros Hl. now apply LineFacts.split_app_sep. Qed.

(** X16: for a locale tag of the form language, underscore, country (no
    underscore in either) the per-locale module and the unit module set
    [LANGUAGE_CODE] to the language and [COUNTRY_CODE] to the country. *)
Theorem X16_language_and_country_codes d t intl language country :
  p_locale t = language ++ "_" ++ country ->
  Js.mem "_" language = false ->
  Js.mem "_" country = false ->
  Spec.occursIn
    ("myModule.LANGUAGE_CODE = '" ++ language ++ "';" ++ Js.LF ++
     "myModule.COUNTRY_CODE = '" ++ country ++ "';")
    (translationModule H d t intl)
  /\ Spec.occursIn
       ("export const LANGUAGE_CODE = '" ++ language ++ "';" ++ Js.LF ++
        "export const COUNTRY_CODE = '" ++ country ++ "';")
       (translationUnit H t intl).
Proof.
  intros Hlocale Hl Hc.
  assert (E0 : localePart (p_locale t) 0 = language).
  { unfold localePart. now rewrite Hlocale, split_at_underscore. }
  assert (E1 : localePart (p_locale t) 1 = country).
  { unfold localePart. rewrite Hlocale, split_at_underscore by assumption.
    now rewrite (StringFacts.split_without _ _ Hc). }
  split.
  - unfold translationModule, moduleHeader. rewrite E0, E1.
    rewrite !StringFacts.append_assoc. occurs_search.
  - unfold translationUnit, unitHeader. rewrite E0, E1.
    rewrite !StringFacts.append_assoc. occurs_search.
Qed.

End Edges.

Lemma X14_no_locales_removes_then_fails_witness :
  compileI18n Cases.noLocalesHost []
  = (Throw TypeError,
     [Removed (distDir (i18n (project Cases.noLocalesHost)))]).
Proof.
  apply (X14_no_locales_removes_then_fails Cases.noLocalesHost (parsed := []));
    reflexivity.
Defined.

Lemma X15_own_keys_have_formatters_witness :
  exists text ast,
    JsObject.get (p_data Demo.german) "who" = Some text
    /\ parser_parse Demo.tsHost text = Ok ast
    /\ Spec.occursIn
         ("    const ast = " ++
          indent "    " (stringifyObject Demo.tsHost ast) ++ ";")
         (formatterOf Demo.tsHost Demo.german "who")
    /\ Spec.occursIn
         ("    const ast = " ++
          indent "    " (stringifyObject Demo.tsHost ast) ++ ";")
         (unitFormatterOf Demo.tsHost Demo.german "who").
Proof.
  apply (X15_own_keys_have_formatters Demo.tsHost Demo.mergedGerman
           (parsed := Demo.german) "who").
  - reflexivity.
  - vm_compute. right. right. left. reflexivity.
Defined.

Lemma X16_language_and_country_codes_witness :
  Spec.occursIn
    ("myModule.LANGUAGE_CODE = 'de';" ++ Js.LF ++
     "myModule.COUNTRY_CODE = 'DE';")
    (translationModule Demo.tsHost Demo.german Demo.german "de-DE")
  /\ Spec.occursIn
       ("export const LANGUAGE_CODE = 'de';" ++ Js.LF ++
        "export const COUNTRY_CODE = 'DE';")
       (translationUnit Demo.tsHost Demo.german "de-DE").
Proof.
  apply (X16_language_and_country_codes Demo.tsHost Demo.german Demo.german
           "de-DE" "de" "DE"); reflexivity.
Defined.

(** ** The declaration and the unit options *)

Section Documentation.

Variable H : Host.

(** X17: in the declaration the function of every key of the default
    translation directly follows its documentation comment, and that
    comment has one line for every compiled locale: with the message of
    the key in that locale, or, when the locale has no such key, with the
    word [undefined], unless the key names a member of
    [Object.prototype], which is then what the line shows. *)
Theorem X17_declaration_documents_every_locale translations d key t :
  In key (JsObject.keys (p_data d)) ->
  In t translations ->
  Spec.occursIn
    (getDocumentation H translations key ++ Js.LF ++
     "  export function " ++ key ++ "(")
    (declaration H translations d)
  /\ (forall text,
        JsObject.get (p_data t) key = Some text ->
        Spec.occursIn
          (Js.LF ++ " * `" ++ p_locale t ++ "`: " ++ text)
          (getDocumentation H translations key))
  /\ (JsObject.get (p_data t) key = None ->
      JsPrototype.isMember key = false ->
      Spec.occursIn
        (Js.LF ++ " * `" ++ p_locale t ++ "`: undefined")
        (getDocumentation H translations key))
  /\ (JsObject.get (p_data t) key = None ->
      JsPrototype.isMember key = true ->
      Spec.occursIn
        (Js.LF ++ " * `" ++ p_locale t ++ "`: " ++ printMember H key)
        (getDocumentation H translations key)).
Proof.
  intros Hkey Ht.
  assert (Hline : Spec.occursIn
            (Js.LF ++ " * `" ++ p_locale t ++ "`: " ++
             printed H (JsPrototype.read (p_data t) key))
            (getDocumentation H translations key)).
  { unfold getDocumentation.
    do 2 apply StringFacts.occursIn_skip. apply StringFacts.occursIn_before.
    apply StringFacts.occursIn_concat.
    apply in_map_iff. exists t. split; [reflexivity | assumption]. }
  split; [|split; [|split]].
  - apply occursIn_trans with (b := declarationOf H translations d key).
    + unfold declarationOf. apply StringFacts.occursIn_skip.
      exists "". eexists. rewrite !StringFacts.append_assoc. reflexivity.
    + unfold declaration.
      apply StringFacts.occursIn_skip, StringFacts.occursIn_before.
      apply StringFacts.occursIn_concat. now apply in_map.
  - intros text Hown. now rewrite (read_own _ _ Hown) in Hline.
  - intros Hnone Hm. now rewrite (read_undefined _ _ Hnone Hm) in Hline.
  - intros Hnone Hm. now rewrite (read_member _ _ Hnone Hm) in Hline.
Qed.

End Documentation.

Lemma X17_declaration_documents_every_locale_witness :
  Spec.occursIn
    (getDocumentation Demo.tsHost [Demo.german; Demo.english] "greeting" ++
     Js.LF ++ "  export function greeting(")
    (declaration Demo.tsHost [Demo.german; Demo.english] Demo.german)
  /\ Spec.occursIn
       (Js.LF ++ " * `en`: undefined")
       (getDocumentation Demo.tsHost [Demo.german; Demo.english] "greeting")
  /\ Spec.occursIn
       (Js.LF ++ " * `en`: function Object() { [native code] }")
       (getDocumentation Cases.inheritedHost
          [Cases.inheritedGerman; Cases.inheritedEnglish] "constructor").
Proof.
  destruct (X17_declaration_documents_every_locale Demo.tsHost
              [Demo.german; Demo.english] Demo.german "greeting" Demo.english)
    as [Hdoc [_ [Hundefined _]]].
  - vm_compute. left. reflexivity.
  - right. left. reflexivity.
  - destruct (X17_declaration_documents_every_locale Cases.inheritedHost
                [Cases.inheritedGerman; Cases.inheritedEnglish]
                Cases.inheritedGerman "constructor" Cases.inheritedEnglish)
      as [_ [_ [_ Hmember]]].
    + vm_compute. right. left. reflexivity.
    + right. left. reflexivity.
    + split; [exact Hdoc|]. split.
      * apply Hundefined; reflexivity.
      * apply Hmember; reflexivity.
Defined.

(** X18: the options of the unit build take [entry], [output] and
    [devtool] from the unit values, whatever the SPA options say, and
    every other option from the SPA options. *)
Theorem X18_unit_options_override_three_fields {V : Type}
    (spaOptions : JsObject.t V) (entryUnit outputTest devtoolTest : V) :
  let options :=
    UnitBuild.options spaOptions entryUnit outputTest devtoolTest in
  JsObject.get options "entry" = Some entryUnit
  /\ JsObject.get options "output" = Some outputTest
  /\ JsObject.get options "devtool" = Some devtoolTest
  /\ forall k,
       k <> "entry" -> k <> "output" -> k <> "devtool" ->
       JsObject.get options k = JsObject.get spaOptions k.
Proof.
  unfold UnitBuild.options. cbv zeta.
  repeat split; try (rewrite JsObjectFacts.get_assign; reflexivity).
  intros k He Ho Hd. rewrite !JsObjectFacts.get_assign. cbn [JsObject.get].
  apply not_eq_sym, String.eqb_neq in He.
  apply not_eq_sym, String.eqb_neq in Ho.
  apply not_eq_sym, String.eqb_neq in Hd.
  rewrite He, Ho, Hd. now destruct (JsObject.get spaOptions k).
Qed.

(** ** Keys are listed once *)

Module KeyFacts.

Import JsObject.

Lemma in_set_fst {V : Type} (o : t V) k v x :
  In x (map fst (set o k v)) <-> x = k \/ In x (map fst o).
Proof.
  rewrite !JsObjectFacts.in_fst_get, JsObjectFacts.get_set.
  destruct (String.eqb k x) eqn:E.
  - apply String.eqb_eq in E. split; [auto | discriminate].
  - apply String.eqb_neq in E. split; [auto | intros [-> | Hx]; tauto].
Qed.

(** An assignment keeps the names of the properties distinct. *)
Lemma set_distinct {V : Type} (o : t V) k v :
  NoDup (map fst o) -> NoDup (map fst (set o k v)).
Proof.
  induction o as [|[k0 v0] r IH]; simpl; intros Hnd.
  - constructor; [intros [] | constructor].
  - inversion Hnd as [|x xs Hout Hr]; subst.
    destruct (String.eqb k0 k) eqn:E; simpl.
    + now constructor.
    + constructor; [|now apply IH].
      rewrite in_set_fst. intros [-> | Hin]; [|contradiction].
      rewrite String.eqb_refl in E. discriminate.
Qed.

Lemma assign_distinct {V : Type} (acc src : t V) :
  NoDup (map fst acc) -> NoDup (map fst (assign acc src)).
Proof.
  unfold assign. generalize (keys src). intros ks. revert acc.
  induction ks as [|k r IH]; intros acc Hnd; simpl; [assumption|].
  apply IH. destruct (get src k); [now apply set_distinct | assumption].
Qed.

Lemma indexKeys_keys ks k :
  In k (map snd (indexKeys ks)) <-> In k ks /\ isNamed k = false.
Proof.
  rewrite in_map_iff. unfold isNamed. split.
  - intros [[n k'] [Ek Hin]]. simpl in Ek. subst k'.
    apply JsObjectFacts.in_indexKeys in Hin. destruct Hin as [Hin Hi].
    now rewrite Hi.
  - intros [Hin Hi]. destruct (arrayIndex k) as [n|] eqn:E; [|discriminate].
    exists (n, k). split; [reflexivity|].
    now apply JsObjectFacts.in_indexKeys.
Qed.

Lemma insertIndex_distinct e l :
  NoDup (map snd l) -> ~ In (snd e) (map snd l) ->
  NoDup (map snd (insertIndex e l)).
Proof.
  induction l as [|x r IH]; simpl; intros Hnd Hout.
  - constructor; [intros [] | constructor].
  - destruct (fst e <=? fst x)%N; simpl.
    + now constructor.
    + inversion Hnd as [|y ys Hx Hr]; subst. constructor.
      * rewrite in_map_iff. intros [z [Ez Hz]].
        apply JsObjectFacts.in_insertIndex in Hz. destruct Hz as [-> | Hz].
        -- apply Hout. left. now symmetry.
        -- apply Hx. apply in_map_iff. eauto.
      * apply IH; [assumption | tauto].
Qed.

Lemma indexKeys_distinct ks : NoDup ks -> NoDup (map snd (indexKeys ks)).
Proof.
  induction 1 as [|k r Hout Hnd IH]; simpl; [constructor|].
  destruct (arrayIndex k) as [n|]; [|assumption].
  apply insertIndex_distinct; [assumption|].
  simpl. rewrite indexKeys_keys. tauto.
Qed.

(** The order of [Object.keys] lists every name once. *)
Lemma orderKeys_distinct ks : NoDup ks -> NoDup (orderKeys ks).
Proof.
  intros Hnd. unfold orderKeys. apply NoDup_app.
  - now apply indexKeys_distinct.
  - now apply NoDup_filter.
  - intros k Hindex Hnamed. apply indexKeys_keys in Hindex.
    apply filter_In in Hnamed. destruct Hindex, Hnamed. congruence.
Qed.

End KeyFacts.

(** X19: the objects that the compiler builds hold every key once, and
    [Object.keys] lists it once: the merged mapping of a locale and the
    camel-cased mapping of a file have no repeated key, so the writers,
    which iterate [Object.keys], emit no formatter twice. *)
Theorem X19_built_objects_list_each_key_once (H : Host)
    (translations : list Translation) (raw : TranslationMap) :
  NoDup (JsObject.keys (mergeData translations))
  /\ NoDup (JsObject.keys (camelCaseKeys H raw)).
Proof.
  assert (Hmerged : NoDup (map fst (mergeData translations))).
  { unfold mergeData. generalize (rev translations). intros ts.
    assert (Hacc : NoDup (map fst (@JsObject.empty string)))
      by constructor.
    revert Hacc. generalize (@JsObject.empty string).
    induction ts as [|t r IH]; intros acc Hacc; simpl; [assumption|].
    apply IH. now apply KeyFacts.assign_distinct. }
  split.
  - now apply KeyFacts.orderKeys_distinct.
  - apply KeyFacts.orderKeys_distinct. unfold camelCaseKeys.
    generalize (JsObject.keys raw). intros ks.
    assert (Hacc : NoDup (map fst (@JsObject.empty string)))
      by constructor.
    revert Hacc. generalize (@JsObject.empty string).
    induction ks as [|k r IH]; intros acc Hacc; simpl; [assumption|].
    apply IH. destruct (JsObject.get raw k); [|assumption].
    now apply KeyFacts.set_distinct.
Qed.

(** ** A module that cannot be written *)

Section FailedModule.

Variable H : Host.

Lemma promiseAll_modules_reject d parsed t log :
  In t parsed -> moduleFails H d t ->
  exists e, fst (promiseAll (map (writeTranslation H d) parsed) log) = Throw e.
Proof.
  revert log. induction parsed as [|t0 r IH]; intros log Hin Hfail;
    [destruct Hin|].
  simpl. destruct (writeTranslation H d t0 log) as [x log1] eqn:E0.
  destruct Hin as [-> | Hin].
  - unfold writeTranslation, await, settled, moduleFails in *.
    destruct (toIntlLocale H (p_locale t)) as [intl|e].
    + destruct Hfail as [e He]. rewrite He in E0. injection E0 as <- <-.
      destruct (promiseAll _ _) as [xs log2]. simpl. eauto.
    + injection E0 as <- <-. destruct (promiseAll _ _) as [xs log2].
      simpl. eauto.
  - destruct (IH log1 Hin Hfail) as [e He].
    destruct (promiseAll _ log1) as [xs log2]. simpl in He. subst xs.
    destruct x; simpl; eauto.
Qed.

(** X20: a per-locale module that cannot be written (its locale is
    refused by [toIntlLocale] or the write fails) makes the compile fail,
    and then neither the unit module nor the declaration is written: all
    that follows the removal in the log are per-locale modules. *)
Theorem X20_failed_module_stops_unit_and_declaration d rest t :
  loadTranslations H = Ok (d :: rest) ->
  removeAsync H (distDir (i18n (project H))) = Ok tt ->
  In t (d :: rest) ->
  moduleFails H d t ->
  exists e writes,
    compileI18n H []
    = (Throw e, Removed (distDir (i18n (project H))) :: writes)
    /\ incl writes (Spec.moduleEvents H d (d :: rest)).
Proof.
  intros Hload Hremove Hin Hfail.
  unfold compileI18n, await, settled, remove. rewrite Hload, Hremove.
  change ([] ++ [Removed (distDir (i18n (project H)))])%list
    with [Removed (distDir (i18n (project H)))].
  pose proof (promiseAll_modules H d (d :: rest)
                [Removed (distDir (i18n (project H)))]) as Hlog.
  destruct (promiseAll_modules_reject d (d :: rest) t
              [Removed (distDir (i18n (project H)))] Hin Hfail) as [e He].
  destruct (promiseAll (map (writeTranslation H d) (d :: rest)) _)
    as [x log1].
  cbn [fst snd] in *. subst x log1.
  exists e, (Spec.moduleEvents H d (d :: rest)).
  split; [reflexivity | apply incl_refl].
Qed.

End FailedModule.

Lemma X20_failed_module_stops_unit_and_declaration_witness :
  exists e writes,
    compileI18n Cases.refusingHost []
    = (Throw e,
       Removed (distDir (i18n (project Cases.refusingHost))) :: writes)
    /\ incl writes
         (Spec.moduleEvents Cases.refusingHost Demo.german
            [Demo.german; Demo.english]).
Proof.
  apply (@X20_failed_module_stops_unit_and_declaration Cases.refusingHost
           Demo.german [Demo.english] Demo.english).
  - vm_compute. reflexivity.
  - reflexivity.
  - right. left. reflexivity.
  - exists Demo.EACCES. reflexivity.
Defined.

(** ** When a key is reported missing *)

Section MissingKey.

Variable H : Host.





Lemma afterRemoval_starts_with_modules d rest log :
  exists tail,
    snd (afterRemoval H (d :: rest) log)
    = (log ++ Spec.moduleEvents H d (d :: rest) ++ tail)%list.
Proof.
  pose proof (promiseAll_modules H d (d :: rest) log) as Hlog.
  unfold afterRemoval, await.
  destruct (promiseAll (map (writeTranslation H d) (d :: rest)) log)
    as [[l|e] log1]; cbn [snd] in Hlog; subst log1.
  - cbn [hd_error]. unfold writeTranslationUnit, await, settled.
    destruct (toIntlLocale H (p_locale d)) as [intl|e].
    + destruct (outputFileAsync H _ (translationUnit H d intl)) as [[]|e].
      * destruct (negb _); unfold writeDeclaration, resolve; cbn [snd];
          rewrite <- ?app_assoc; eexists; reflexivity.
      * cbn [snd]. rewrite <- app_assoc. eexists. reflexivity.
    + exists []. cbn [snd]. now rewrite app_nil_r.
  - exists []. cbn [snd]. now rewrite app_nil_r.
Qed.

(** X22: once the translations are loaded and the output directory is
    removed, [compileI18n] issues the per-locale modules first, each
    built against the parsed translation of the first configured locale;
    whatever the locale of a module, every key of that default
    translation has a formatter in it, a key that only the module's own
    locale has changes nothing in it, and a default key that the locale
    lacks and that does not name a member of [Object.prototype] gets the
    missing-key formatter. *)
Theorem X22_modules_follow_the_default_keys d rest t :
  loadTranslations H = Ok (d :: rest) ->
  removeAsync H (distDir (i18n (project H))) = Ok tt ->
  In t (d :: rest) ->
  hd_error (locales (i18n (project H))) = Some (p_locale d)
  /\ (exists tail,
        snd (compileI18n H [])
        = (Removed (distDir (i18n (project H)))
           :: Spec.moduleEvents H d (d :: rest) ++ tail)%list)
  /\ forall intl,
       (forall key,
          In key (JsObject.keys (p_data d)) ->
          Spec.occursIn (Js.LF ++ "myModule." ++ key ++ " = function(")
                        (translationModule H d t intl))
       /\ (forall key ast,
             ~ In key (JsObject.keys (p_data d)) ->
             translationModule H d
               {| p_locale := p_locale t;
                  p_data := JsObject.set (p_data t) key "only here";
                  asts := JsObject.set (asts t) key ast |} intl
             = translationModule H d t intl)
       /\ (forall key,
             In key (JsObject.keys (p_data d)) ->
             JsObject.get (p_data t) key = None ->
             JsPrototype.isMember key = false ->
             formatterOf H t key
             = Js.LF ++ "myModule." ++ key ++ " = function() {return '" ++
               Spec.missingKey key ++ "';" ++ Js.LF ++ "};" ++ Js.LF).
Proof.
  intros Hload Hremove Hin.
  destruct (loadTranslations_parsed H Hload) as [ts Hparsed].
  split; [|split].
  - pose proof (parsed_locales H Hparsed) as Hlocales.
    rewrite merged_locales in Hlocales. rewrite <- Hlocales. reflexivity.
  - destruct (afterRemoval_starts_with_modules d rest
                [Removed (distDir (i18n (project H)))]) as [tail Htail].
    exists tail. unfold compileI18n, await, settled, remove.
    rewrite Hload, Hremove. exact Htail.
  - intros intl. destruct (parsed_from_merged H t Hparsed Hin) as [m Hm].
    destruct (module_formatters_follow_default_keys H d m intl Hm)
      as [_ [Hnamed [_ [Hout Hmissing]]]].
    auto.
Qed.

End MissingKey.

Lemma X22_modules_follow_the_default_keys_witness :
  hd_error (locales (i18n (project Demo.tsHost))) = Some "de_DE"
  /\ Spec.occursIn
       (Js.LF ++ "myModule.who = function(")
       (translationModule Demo.tsHost Demo.german Demo.english "en")
  /\ formatterOf Demo.tsHost Demo.english "who"
     = Js.LF ++ "myModule.who = function() {return '" ++
       Spec.missingKey "who" ++ "';" ++ Js.LF ++ "};" ++ Js.LF
  /\ translationModule Demo.tsHost Demo.german
       {| p_locale := "en";
          p_data := JsObject.set (p_data Demo.english) "extra" "only here";
          asts := JsObject.set (asts Demo.english) "extra" (Demo.text "x") |}
       "en"
     = translationModule Demo.tsHost Demo.german Demo.english "en".
Proof.
  assert (Hin : In Demo.english [Demo.german; Demo.english])
    by (right; left; reflexivity).
  destruct (@X22_modules_follow_the_default_keys Demo.tsHost
              Demo.german [Demo.english] Demo.english
              (proj1 demo_loadTranslations) eq_refl Hin)
    as [Hdefault [_ Hmodule]].
  destruct (Hmodule "en") as [Hnamed [Hout Hmissing]].
  split; [exact Hdefault|]. split; [|split].
  - apply (Hnamed "who"). vm_compute. auto.
  - apply (Hmissing "who"); [vm_compute; auto | reflexivity | reflexivity].
  - apply (Hout "extra" (Demo.text "x")). vm_compute.
    intros [E | [E | [E | []]]]; discriminate E.
Defined.
